(** * Byte-frequency analyzer ([frequency.go]): model and verification

    The Go package [frequency] keeps a histogram of byte values
    ([Analyzer.frequency], 256 counters of type [int64]) together with the
    number of bytes seen ([Analyzer.size]), scores contents against the
    histogram and saves/restores the counters with [encoding/gob].

    The embedding follows the source:
    - [int64] is [Z] with the two's-complement wrap-around written out;
    - [float64] arithmetic is a small interface [Float64] with two
      instances: Rocq's primitive binary64 floats (what the Go program
      computes) and exact rationals (the arithmetic the program
      approximates);
    - an [*Analyzer] is a location in a heap, methods are computations in a
      state monad over the heap and the file system;
    - [os] and [encoding/gob] are outside the package: files live in a finite
      map from paths to contents, and the gob encoder and decoder are the
      operations of the interface [Gob].
    Locks ([sync.RWMutex]) are not modelled: every method runs to completion
    on its own.  binary64 operations are rounded one by one (no fused
    multiply-add), as the Go compiler emits them on amd64. *)

From Stdlib Require Import ZArith QArith Qabs Floats Lia Lqa String.
From stdpp Require Import base tactics option list gmap strings.

Open Scope Z_scope.

(** ** [int64] *)

(** The value of an [int64] after an arithmetic result [z] is stored in it. *)
Definition int64_wrap (z : Z) : Z := (z + 2 ^ 63) `mod` 2 ^ 64 - 2 ^ 63.

Definition int64_min : Z := - 2 ^ 63.
Definition int64_max : Z := 2 ^ 63 - 1.

(** ** [float64] *)

(** The operations of [float64] that the package uses. *)
Class Float64 (F : Type) := {
  f_zero : F;
  f_one : F;
  f_of_int64 : Z -> F;            (* float64(v) for v of type int64 *)
  f_add : F -> F -> F;
  f_sub : F -> F -> F;
  f_mul : F -> F -> F;
  f_div : F -> F -> F;
  f_abs : F -> F;                 (* math.Abs *)
  f_eqb : F -> F -> bool;         (* a == b *)
  f_gtb : F -> F -> bool          (* a > b *)
}.

Declare Scope F_scope.
Delimit Scope F_scope with F.
Notation "a + b" := (f_add a b) : F_scope.
Notation "a - b" := (f_sub a b) : F_scope.
Notation "a * b" := (f_mul a b) : F_scope.
Notation "a / b" := (f_div a b) : F_scope.
Notation "a == b" := (f_eqb a b) (at level 70, no associativity) : F_scope.
Notation "a >? b" := (f_gtb a b) (at level 70, no associativity) : F_scope.

(** Conversion of an [int64] to binary64, rounding to nearest even as the
    hardware conversion does.  [of_uint63] converts the integers of
    [0, 2^63), which leaves out only [-2^63], a power of two. *)
Definition float_of_int64 (z : Z) : float :=
  if z <? 0 then
    if z =? int64_min then (-0x1p63)%float
    else (- of_uint63 (Uint63.of_Z (- z)))%float
  else of_uint63 (Uint63.of_Z z).

(** Go's [float64]: IEEE 754 binary64. *)
#[export] Instance binary64 : Float64 float := {
  f_zero := 0%float;
  f_one := 1%float;
  f_of_int64 := float_of_int64;
  f_add := PrimFloat.add;
  f_sub := PrimFloat.sub;
  f_mul := PrimFloat.mul;
  f_div := PrimFloat.div;
  f_abs := PrimFloat.abs;
  f_eqb := PrimFloat.eqb;
  f_gtb := fun a b => PrimFloat.ltb b a
}.

(** The same operations without rounding, on rationals. *)
#[export] Instance exact : Float64 Q := {
  f_zero := 0%Q;
  f_one := 1%Q;
  f_of_int64 := inject_Z;
  f_add := Qplus;
  f_sub := Qminus;
  f_mul := Qmult;
  f_div := Qdiv;
  f_abs := Qabs;
  f_eqb := Qeq_bool;
  f_gtb := fun a b => negb (Qle_bool a b)
}.

(** ** The [Analyzer] struct *)

Record Analyzer := mkAnalyzer {
  frequency : list Z;             (* [256]int64 *)
  size : Z                        (* int64 *)
}.

(** The zero value [Analyzer{}]. *)
Definition Analyzer_zero : Analyzer :=
  {| frequency := replicate 256 0; size := 0 |}.

#[export] Instance Analyzer_inhabited : Inhabited Analyzer :=
  populate Analyzer_zero.

(** [a.frequency[character] += 1] *)
Definition incr_frequency (character : Byte.byte) (a : Analyzer) : Analyzer :=
  {| frequency :=
       alter (fun v => int64_wrap (v + 1)) (Byte.to_nat character) (frequency a);
     size := size a |}.

(** [a.size += v] *)
Definition add_size (v : Z) (a : Analyzer) : Analyzer :=
  {| frequency := frequency a; size := int64_wrap (size a + v) |}.

(** [&a.frequency] written by the decoder. *)
Definition set_frequency (f : list Z) (a : Analyzer) : Analyzer :=
  {| frequency := f; size := size a |}.

(** The sum of the counters, as an [int64] accumulator computes it. *)
Definition sum_int64 (l : list Z) : Z :=
  foldl (fun s v => int64_wrap (s + v)) 0 l.

(** ** Scoring *)

Section Scoring.
Context {F : Type} `{Float64 F}.
Local Open Scope F_scope.

Definition max (a b : F) : F :=
  if a >? b then a else b.

Definition relativeDifference (a b : F) : F :=
  if (a == f_zero) && (b == f_zero) then f_zero
  else f_abs (a - b) / max a b.

(** [float64(a.frequency[i]) / float64(a.size)] *)
Definition normalized (a : Analyzer) (i : nat) : F :=
  f_of_int64 (frequency a !!! i) / f_of_int64 (size a).

(** One iteration of the loop of [scoreFrequencies]. *)
Definition score_step (ref target : Analyzer) (score : F) (i : nat) : F :=
  let r := normalized ref i in
  let t := normalized target i in
  score + r * (f_one - relativeDifference r t).

Definition scoreFrequencies (ref target : Analyzer) : F :=
  foldl (score_step ref target) f_zero (seq 0 256).
End Scoring.

(** ** The world: heap, files, and the gob codec *)

Definition loc := positive.

Inductive error :=
  | PathError                     (* os.Create, os.Open *)
  | GobError.                     (* Encoder.Encode, Decoder.Decode *)

(** [encoding/gob] for a value of type [[256]int64].  [gob_Encode v] is what
    the encoder writes to the file and the error it returns; [gob_Decode d v]
    decodes the contents [d] into the array that holds [v] and gives the
    array as the decoder leaves it, with the error it returns. *)
Class Gob := {
  file : Type;
  gob_Encode : list Z -> file * option error;
  gob_Decode : file -> list Z -> list Z * option error
}.

Section Methods.
Context `{Gob} {F : Type} `{Float64 F}.

Record World := mkWorld {
  heap : gmap loc Analyzer;       (* the Analyzers allocated so far *)
  disk : gmap string file;        (* the files, by path *)
  denied : gset string            (* paths that cannot be opened or created *)
}.

Definition M (A : Type) : Type := World -> A * World.

Definition ret {A} (x : A) : M A := fun w => (x, w).
Definition bind {A B} (m : M A) (k : A -> M B) : M B :=
  fun w => let '(x, w') := m w in k x w'.

Local Notation "x <- m ;; k" := (bind m (fun x => k))
  (at level 100, m at next level, right associativity).
Local Notation "m ;;; k" := (bind m (fun _ => k))
  (at level 100, right associativity).

(** [for _, x := range xs { body x }] *)
Fixpoint range {A} (xs : list A) (body : A -> M unit) : M unit :=
  match xs with
  | [] => ret tt
  | x :: xs' => body x ;;; range xs' body
  end.

(** Reading and updating the struct behind a pointer. *)
Definition load (a : loc) : M Analyzer :=
  fun w => (heap w !!! a, w).
Definition update (a : loc) (f : Analyzer -> Analyzer) : M unit :=
  fun w => (tt, mkWorld (alter f a (heap w)) (disk w) (denied w)).

Definition NewAnalyzer : M loc :=
  fun w =>
    let a := fresh (dom (heap w)) in
    (a, mkWorld (<[a := Analyzer_zero]> (heap w)) (disk w) (denied w)).

Definition Feed (a : loc) (contents : list Byte.byte) : M unit :=
  range contents (fun character =>
    update a (incr_frequency character) ;;;
    update a (add_size 1)).

Definition Score (a : loc) (contents : list Byte.byte) : M F :=
  other <- NewAnalyzer ;;
  Feed other contents ;;;
  ref <- load a ;;
  target <- load other ;;
  ret (scoreFrequencies ref target).

Definition ScoreString (a : loc) (text : string) : M F :=
  Score a (list_byte_of_string text).

(** [os.Create]: the file is created or truncated; the encoder then
    writes its contents, which [write_file] stores. *)
Definition os_Create (path : string) : M (option error) :=
  fun w => if decide (path ∈ denied w) then (Some PathError, w) else (None, w).
Definition write_file (path : string) (d : file) : M unit :=
  fun w => (tt, mkWorld (heap w) (<[path := d]> (disk w)) (denied w)).

Definition os_Open (path : string) : M (file + error) :=
  fun w =>
    if decide (path ∈ denied w) then (inr PathError, w)
    else match disk w !! path with
         | Some d => (inl d, w)
         | None => (inr PathError, w)
         end.

Definition Save (a : loc) (path : string) : M (option error) :=
  err <- os_Create path ;;
  match err with
  | Some e => ret (Some e)
  | None =>
      this <- load a ;;
      let '(d, err) := gob_Encode (frequency this) in
      write_file path d ;;;
      match err with
      | Some e => ret (Some e)
      | None => ret None
      end
  end.

Definition Restore (a : loc) (path : string) : M (option error) :=
  opened <- os_Open path ;;
  match opened with
  | inr e => ret (Some e)
  | inl d =>
      this <- load a ;;
      let '(decoded, err) := gob_Decode d (frequency this) in
      update a (set_frequency decoded) ;;;
      match err with
      | Some e => ret (Some e)
      | None =>
          this <- load a ;;
          range (frequency this) (fun v => update a (add_size v)) ;;;
          ret None
      end
  end.
End Methods.

Arguments World {_}.
Arguments M {_} _.

Notation "x <- m ;; k" := (bind m (fun x => k))
  (at level 100, m at next level, right associativity).
Notation "m ;;; k" := (bind m (fun _ => k))
  (at level 100, right associativity).

(** ** A stand-in for [encoding/gob], for the examples

    The theorems hold for every [Gob]; the examples need one.  A stream
    carries the array length its type descriptor declares and the encoded
    elements.  The decoder refuses a stream whose declared length is not
    that of the array (gob: "length mismatch"); otherwise it stores the
    elements in the array it was given, one after the other, and fails when
    the input ends before the array is full (gob: "length exceeds input
    size"), as gob's array decoder does with the pointer it receives. *)

Record stream := mkStream {
  declared : nat;
  elements : list Z
}.

Fixpoint decode_elements (i n : nat) (input : list Z) (v : list Z)
  : list Z * option error :=
  match n with
  | O => (v, None)
  | S n' =>
      match input with
      | [] => (v, Some GobError)
      | x :: input' => decode_elements (S i) n' input' (<[i := x]> v)
      end
  end.

Definition stream_Decode (d : stream) (v : list Z) : list Z * option error :=
  if decide (declared d = length v)
  then decode_elements 0 (length v) (elements d) v
  else (v, Some GobError).

Definition stream_gob : Gob := {|
  file := stream;
  gob_Encode := fun v => (mkStream (length v) v, None);
  gob_Decode := stream_Decode
|}.

(** ** The effect of the loops, as functions on the struct *)

(** The body of the loop of [Feed]. *)
Definition feed_step (a : Analyzer) (character : Byte.byte) : Analyzer :=
  add_size 1 (incr_frequency character a).

Definition feed (contents : list Byte.byte) (a : Analyzer) : Analyzer :=
  foldl feed_step a contents.

(** The loop of [Restore] that adds the counters to [size]. *)
Definition add_sizes (vs : list Z) (a : Analyzer) : Analyzer :=
  foldl (fun a v => add_size v a) a vs.

(** The number of occurrences of the byte of index [i] in [contents]. *)
Definition occurrences (i : nat) (contents : list Byte.byte) : nat :=
  length (filter (fun c => Byte.to_nat c = i) contents).

(** ** Example worlds and programs *)

(** A world with one Analyzer, fed the byte [a]. *)
Definition world_one : @World stream_gob :=
  mkWorld {[ 1%positive := feed [Byte.x61] Analyzer_zero ]} ∅ ∅.

(** The empty world: no Analyzer, no file. *)
Definition world_empty : @World stream_gob := mkWorld ∅ ∅ ∅.

(** [world_one] with a file whose stream declares 256 elements and holds
    one. *)
Definition world_short_file : @World stream_gob :=
  mkWorld {[ 1%positive := feed [Byte.x61] Analyzer_zero ]}
          {[ "model.gob"%string := mkStream 256 [7] ]} ∅.

(** [a := NewAnalyzer(); a.Feed("a"); a.Save(p); err := a.Restore(p)],
    giving [err] and [*a]. *)
Definition restore_in_place : @M stream_gob (option error * Analyzer) :=
  a <- NewAnalyzer ;;
  Feed a [Byte.x61] ;;;
  _ <- Save a "model.gob" ;;
  err <- Restore a "model.gob" ;;
  this <- load a ;;
  ret (err, this).

(** The same, followed by
    [e1 := a.Save(q); b := NewAnalyzer(); e2 := b.Restore(q)],
    giving [e1], [e2], [*a] and [*b]. *)
Definition save_restored_then_restore
  : @M stream_gob (option error * option error * Analyzer * Analyzer) :=
  a <- NewAnalyzer ;;
  Feed a [Byte.x61] ;;;
  _ <- Save a "model.gob" ;;
  _ <- Restore a "model.gob" ;;
  e1 <- Save a "copy.gob" ;;
  b <- NewAnalyzer ;;
  e2 <- Restore b "copy.gob" ;;
  this <- load a ;;
  that <- load b ;;
  ret (e1, e2, this, that).

(** [a := NewAnalyzer(); a.Feed(contents); a.Score(contents)] on binary64. *)
Definition train_and_score (contents : list Byte.byte) : @M stream_gob float :=
  a <- NewAnalyzer ;;
  Feed a contents ;;;
  Score (F:=float) a contents.

(** ** Non-negative finite floats *)

(** A binary64 value that is a zero or a positive finite number. *)
Definition nonneg_finite (x : spec_float) : Prop :=
  match x with
  | S754_zero _ => True
  | S754_finite s _ _ => s = false
  | _ => False
  end.

(** ** Sums over byte values *)

(** [f i1 + (f i2 + ...)] for the indices [i1, i2, ...] of [l]. *)
Definition sum_over (f : nat -> Z) (l : list nat) : Z :=
  foldr (fun i s => f i + s) 0 l.

(** ** The size invariant *)

(** The sum of the counters, without wrap-around. *)
Definition Zsum (l : list Z) : Z := foldr Z.add 0 l.

(** [size == sum(frequency[0..255])], on a well-formed struct. *)
Definition size_is_sum (a : Analyzer) : Prop :=
  length (frequency a) = 256%nat /\ size a = sum_int64 (frequency a).

(** ** Well-typed structs *)

(** A struct of type [Analyzer]: 256 counters, all fields in the range of
    [int64]. *)
Definition Analyzer_typed (a : Analyzer) : Prop :=
  length (frequency a) = 256%nat /\
  Forall (fun v => int64_min <= v <= int64_max) (frequency a) /\
  int64_min <= size a <= int64_max.

(** ** More example worlds and programs *)

(** [world_one] with the path ["locked.gob"] out of reach and a file the
    stand-in codec wrote for the counters of [Analyzer_zero]. *)
Definition world_files : @World stream_gob :=
  mkWorld {[ 1%positive := feed [Byte.x61] Analyzer_zero ]}
          {[ "zero.gob"%string := mkStream 256 (replicate 256 0) ]}
          {[ "locked.gob"%string ]}.

(** [b := NewAnalyzer(); err := b.Restore(path)], giving [err] and [*b]. *)
Definition restore_into_new `{Gob} (path : string) : M (option error * Analyzer) :=
  b <- NewAnalyzer ;;
  err <- Restore b path ;;
  that <- load b ;;
  ret (err, that).

(** [e1 := a.Save(path); b := NewAnalyzer(); e2 := b.Restore(path)], giving
    [e1], [e2] and [*b]. *)
Definition save_then_restore_into_new `{Gob} (a : loc) (path : string)
  : M (option error * option error * Analyzer) :=
  e1 <- Save a path ;;
  b <- NewAnalyzer ;;
  e2 <- Restore b path ;;
  that <- load b ;;
  ret (e1, e2, that).

(** ** The preset [EnglishAnalyzer] *)

(** The package-level variable [EnglishAnalyzer]: counters from English
    texts, with the [size] written beside them. *)
Definition EnglishAnalyzer : Analyzer :=
  {| frequency :=
      [0; 0; 0; 0; 0; 0; 0; 0; 0; 0; 132230; 0; 0; 0; 0; 0; 0; 0; 0; 0;
       0; 0; 0; 0; 0; 0; 0; 0; 0; 0; 0; 0; 1118323; 4805; 16267; 10; 17;
       11; 30; 13831; 1299; 1299; 352; 0; 97346; 24497; 47923; 198;
       1133; 1409; 659; 517; 471; 490; 349; 350; 504; 301; 6172; 16468;
       3; 2; 3; 4411; 20; 12139; 5370; 5999; 3507; 5993; 4066; 3747;
       7966; 26560; 1878; 695; 3840; 6518; 4805; 5236; 4835; 460; 3992;
       8246; 16050; 1289; 960; 6071; 298; 2106; 221; 407; 0; 407; 0;
       963; 0; 425022; 80895; 140227; 226517; 688599; 127083; 105382;
       321942; 349210; 4730; 35065; 221740; 128556; 373375; 395487;
       90412; 5787; 325314; 341986; 476299; 150327; 53345; 109065; 8599;
       95926; 4605; 14; 0; 14; 1; 0; 0; 0; 0; 0; 0; 0; 0; 0; 0; 0; 0; 0;
       0; 0; 0; 0; 0; 0; 0; 0; 0; 0; 0; 0; 0; 0; 0; 0; 0; 0; 0; 0; 0; 0;
       0; 0; 0; 0; 0; 0; 0; 0; 0; 0; 0; 0; 0; 0; 0; 0; 0; 0; 0; 0; 0; 0;
       0; 0; 0; 0; 0; 0; 0; 0; 0; 0; 0; 0; 0; 0; 0; 0; 0; 0; 0; 0; 0; 0;
       0; 0; 0; 0; 0; 0; 0; 0; 0; 0; 0; 0; 0; 0; 0; 0; 0; 0; 0; 0; 0; 0;
       0; 0; 0; 0; 0; 0; 0; 0; 0; 0; 0; 0; 0; 0; 0; 0; 0; 0; 0; 0; 0; 0;
       0; 0; 0; 0; 0; 0
      ];
     size := 6921848 |}.

(** ** The map-based revision of the package

    In the revision that counts runes in Go maps, [scoreOccurances] compares
    the key sets of two count tables.  A [map[rune]float64] is a finite map
    from [Z] (a [rune] is an [int32]); [len(m)] is its number of keys.
    [math.Max] belongs to Go's library and is a parameter here. *)

Module MapRevision.
Section Sets.
Context {F : Type} `{Float64 F}.
Variable math_Max : F -> F -> F.
Local Open Scope F_scope.

Record Analyzer := mkAnalyzer {
  Frequency : gmap Z F;           (* map[rune]float64 *)
  CCount : gmap Z F;              (* map[rune]float64 *)
  Size : Z                        (* int64 *)
}.

(** [len(m)] *)
Definition len (m : gmap Z F) : Z := Z.of_nat (base.size m).

(** The loop returns [false] at the first key of [a] that [b] lacks. *)
Definition setEqual (a b : gmap Z F) : bool :=
  if negb (len a =? len b)%Z then false
  else forallb (fun k => bool_decide (is_Some (b !! k))) (map_to_list a).*1.

Definition setIntersection (a b : gmap Z F) : gmap Z F :=
  map_fold (fun k _ res => match b !! k with
                           | Some v => <[k := v]> res
                           | None => res
                           end) ∅ a.

Definition setRelativeDifference (a b : gmap Z F) : F :=
  if setEqual a b then f_zero
  else
    let ci := f_of_int64 (len (setIntersection a b)) in
    let ca := f_of_int64 (len a) in
    let cb := f_of_int64 (len b) in
    if ci == f_zero then f_one
    else math_Max (ca - ci) (cb - ci) / math_Max ca cb.

Definition scoreOccurances (ref target : Analyzer) : F :=
  if (len (CCount target) =? 0)%Z then f_zero
  else f_one - setRelativeDifference (CCount ref) (CCount target).

(** [a < 0 && b >= 0], with the comparisons of the interface. *)
Definition negative_and_not (a b : F) : bool :=
  (f_zero >? a) && ((b >? f_zero) || (b == f_zero)).

Definition relativeDifference (a b : F) : F :=
  if (a == f_zero) && (b == f_zero) then f_zero
  else
    let '(a, b) :=
      if negative_and_not a b then (f_abs a, f_abs a + b)
      else if negative_and_not b a then (a + f_abs b, f_abs b)
      else (a, b) in
    f_abs ((a - b) / math_Max a b).
End Sets.
End MapRevision.


Definition counts_c {F} `{Float64 F} : gmap Z F :=
  {[ 99 := f_one ]}.

(** * Verification *)

(** ** Running the methods *)

Section Running.
Context `{Gob}.

Lemma World_eta (w : World) : mkWorld (heap w) (disk w) (denied w) = w.
Proof. by destruct w. Qed.

Lemma range_update {A} (xs : list A) (f : A -> Analyzer -> Analyzer) a w :
  range xs (fun x => update a (f x)) w =
  (tt, mkWorld (alter (fun s => foldl (fun s x => f x s) s xs) a (heap w))
               (disk w) (denied w)).
Proof.
  revert w. induction xs as [|x xs IH]; intros w; simpl.
  - unfold ret. f_equal. rewrite <- (World_eta w) at 1. f_equal.
    symmetry. by apply alter_id.
  - unfold bind at 1. unfold update at 1. rewrite IH. simpl.
    by rewrite alter_alter_eq.
Qed.

Lemma Feed_run a contents w :
  Feed a contents w =
  (tt, mkWorld (alter (feed contents) a (heap w)) (disk w) (denied w)).
Proof.
  unfold Feed. revert w.
  induction contents as [|c cs IH]; intros w; simpl.
  - unfold ret. f_equal. rewrite <- (World_eta w) at 1. f_equal.
    symmetry. by apply alter_id.
  - unfold bind at 1. unfold bind at 1. unfold update at 1 2. simpl.
    rewrite IH. simpl. rewrite !alter_alter_eq. reflexivity.
Qed.
End Running.

Section RunningMethods.
Context `{Gob} {F : Type} `{Float64 F}.

Lemma NewAnalyzer_Feed_run contents w :
  (a <- NewAnalyzer ;; Feed a contents ;;; ret a) w =
  (fresh (dom (heap w)),
   mkWorld (<[fresh (dom (heap w)) := feed contents Analyzer_zero]> (heap w))
           (disk w) (denied w)).
Proof.
  unfold bind, NewAnalyzer, ret. rewrite Feed_run. simpl.
  by rewrite alter_insert_eq.
Qed.

Lemma fresh_loc_ne (w : World) a :
  is_Some (heap w !! a) -> fresh (dom (heap w)) <> a.
Proof.
  intros Ha Heq. apply (is_fresh (dom (heap w))). rewrite Heq. by apply elem_of_dom.
Qed.

(** [Score] reads the receiver as it is once the target has been
    allocated and fed. *)
Lemma Score_run a contents w :
  Score (F:=F) a contents w =
  (scoreFrequencies
     (<[fresh (dom (heap w)) := feed contents Analyzer_zero]> (heap w) !!! a)
     (feed contents Analyzer_zero),
   mkWorld (<[fresh (dom (heap w)) := feed contents Analyzer_zero]> (heap w))
           (disk w) (denied w)).
Proof.
  unfold Score, bind, NewAnalyzer, load, ret.
  rewrite Feed_run. simpl. rewrite alter_insert_eq.
  by rewrite (lookup_total_insert_eq (heap w)).
Qed.

Lemma Score_run_live a contents w :
  is_Some (heap w !! a) ->
  Score (F:=F) a contents w =
  (scoreFrequencies (heap w !!! a) (feed contents Analyzer_zero),
   mkWorld (<[fresh (dom (heap w)) := feed contents Analyzer_zero]> (heap w))
           (disk w) (denied w)).
Proof.
  intros Ha. rewrite Score_run. f_equal. f_equal.
  rewrite lookup_total_insert_ne; [done|]. by apply fresh_loc_ne.
Qed.

Lemma Save_heap a path w : heap (snd (Save a path w)) = heap w.
Proof.
  unfold Save, bind, os_Create, load, write_file, ret.
  destruct (decide (path ∈ denied w)); [done|].
  destruct (gob_Encode (frequency (heap w !!! a))) as [d [e|]]; done.
Qed.
End RunningMethods.

(** ** Feeding *)

Lemma feed_step_comm a c1 c2 :
  feed_step (feed_step a c1) c2 = feed_step (feed_step a c2) c1.
Proof.
  unfold feed_step, add_size, incr_frequency. simpl. f_equal.
  rewrite list_alter_alter. case_decide as Hi; [|done].
  rewrite Hi. by rewrite list_alter_alter_eq.
Qed.

Lemma feed_feed_step cs a c :
  feed cs (feed_step a c) = feed_step (feed cs a) c.
Proof.
  revert a. induction cs as [|c' cs IH]; intros a; [done|].
  unfold feed in *. simpl. by rewrite feed_step_comm, IH.
Qed.

Lemma feed_app A B a : feed (A ++ B) a = feed B (feed A a).
Proof. unfold feed. by rewrite foldl_app. Qed.

Lemma feed_comm A B a : feed B (feed A a) = feed A (feed B a).
Proof.
  revert a. induction A as [|c A IH]; intros a; [done|].
  change (feed (c :: A) ?x) with (feed A (feed_step x c)).
  by rewrite IH, feed_feed_step.
Qed.

(** C6: feeding [A] then [B] to a fresh Analyzer, feeding [B] then [A], and
    feeding the concatenation [A ++ B] once all leave the same counters and
    the same size (the same Analyzer, in the same world). *)
Theorem Feed_order_and_concatenation `{Gob} (A B : list Byte.byte) (w : World) :
  (a <- NewAnalyzer ;; Feed a A ;;; Feed a B ;;; ret a) w =
  (a <- NewAnalyzer ;; Feed a B ;;; Feed a A ;;; ret a) w
  /\
  (a <- NewAnalyzer ;; Feed a A ;;; Feed a B ;;; ret a) w =
  (a <- NewAnalyzer ;; Feed a (A ++ B) ;;; ret a) w.
Proof.
  assert (Hrun : forall X Y,
    (a <- NewAnalyzer ;; Feed a X ;;; Feed a Y ;;; ret a) w =
    (fresh (dom (heap w)),
     mkWorld (<[fresh (dom (heap w)) := feed Y (feed X Analyzer_zero)]> (heap w))
             (disk w) (denied w))).
  { intros X Y. unfold bind, NewAnalyzer, ret. rewrite !Feed_run. simpl.
    by rewrite alter_alter_eq, alter_insert_eq. }
  rewrite !Hrun, NewAnalyzer_Feed_run. split.
  - by rewrite feed_comm.
  - by rewrite feed_app.
Qed.

(** ** Methods that only read the receiver *)

(** C9: [Score], [ScoreString] and [Save] leave the receiver's [frequency]
    and [size] as they were: the target that [Score] builds is a new
    Analyzer, and [Save] only writes the file. *)
Theorem readers_preserve_receiver `{Gob} {F : Type} `{Float64 F}
    (w : World) (a : loc) (contents : list Byte.byte) (text path : string) :
  is_Some (heap w !! a) ->
  heap (snd (Score (F:=F) a contents w)) !! a = heap w !! a /\
  heap (snd (ScoreString (F:=F) a text w)) !! a = heap w !! a /\
  heap (snd (Save a path w)) !! a = heap w !! a.
Proof.
  intros Ha. unfold ScoreString. rewrite !Score_run_live by done. simpl.
  rewrite !lookup_insert_ne by (by apply fresh_loc_ne).
  by rewrite Save_heap.
Qed.

Lemma readers_preserve_receiver_witness :
  is_Some (heap world_one !! 1%positive) /\
  (heap (snd (Score (F:=float) 1%positive [Byte.x61; Byte.x62] world_one)) !! 1%positive
     = heap world_one !! 1%positive /\
   heap (snd (ScoreString (F:=float) 1%positive "ab" world_one)) !! 1%positive
     = heap world_one !! 1%positive /\
   heap (snd (Save 1%positive "model.gob" world_one)) !! 1%positive
     = heap world_one !! 1%positive).
Proof.
  assert (Hlive : is_Some (heap world_one !! 1%positive)) by (by eexists).
  split; [exact Hlive|].
  exact (readers_preserve_receiver world_one 1%positive
           [Byte.x61; Byte.x62] "ab" "model.gob" Hlive).
Defined.

(** ** Restoring *)

Section Restoring.
Context `{Gob}.

Lemma add_sizes_frequency vs s : frequency (add_sizes vs s) = frequency s.
Proof.
  revert s. induction vs as [|v vs IH]; intros s; [done|].
  unfold add_sizes in *. simpl. by rewrite IH.
Qed.

Lemma add_sizes_size vs s :
  size (add_sizes vs s) = foldl (fun z v => int64_wrap (z + v)) (size s) vs.
Proof.
  revert s. induction vs as [|v vs IH]; intros s; [done|].
  unfold add_sizes in *. simpl. by rewrite IH.
Qed.

Lemma os_Open_world path (w : World) : snd (os_Open path w) = w.
Proof.
  unfold os_Open. destruct (decide (path ∈ denied w)); [done|].
  by destruct (disk w !! path).
Qed.

Lemma Restore_open_error a path (w : World) e :
  fst (os_Open path w) = inr e -> Restore a path w = (Some e, w).
Proof.
  intros Ho. unfold Restore, bind.
  destruct (os_Open path w) as [o w'] eqn:Hw.
  pose proof (os_Open_world path w) as Hw'. rewrite Hw in Hw'. simpl in *.
  by subst.
Qed.

Lemma Restore_opened a path (w : World) d s :
  fst (os_Open path w) = inl d ->
  heap w !! a = Some s ->
  Restore a path w =
  (snd (gob_Decode d (frequency s)),
   mkWorld
     (<[a := match snd (gob_Decode d (frequency s)) with
             | Some _ => set_frequency (fst (gob_Decode d (frequency s))) s
             | None =>
                 add_sizes (fst (gob_Decode d (frequency s)))
                           (set_frequency (fst (gob_Decode d (frequency s))) s)
             end]> (heap w))
     (disk w) (denied w)).
Proof.
  intros Ho Hs. unfold Restore, bind.
  destruct (os_Open path w) as [o w'] eqn:Hw.
  pose proof (os_Open_world path w) as Hw'. rewrite Hw in Hw'. simpl in *.
  subst o w'. rewrite (lookup_total_correct _ _ _ Hs).
  destruct (gob_Decode d (frequency s)) as [decoded [e|]]; simpl.
  - unfold ret. by rewrite (alter_alt_Some _ _ _ _ Hs).
  - rewrite (alter_alt_Some _ _ _ _ Hs), lookup_total_insert_eq. simpl.
    rewrite range_update. simpl. unfold ret.
    by rewrite alter_insert_eq.
Qed.
End Restoring.

(** C1: [Restore] adds the decoded counters to the [size] the Analyzer
    already has.  After [a.Feed("a"); a.Save(p); a.Restore(p)] the call has
    succeeded, [size] is 2 and the counters sum to 1. *)
Theorem Restore_adds_to_previous_size :
  let r := fst (restore_in_place world_empty) in
  fst r = None /\ size (snd r) = 2 /\ sum_int64 (frequency (snd r)) = 1.
Proof. vm_compute. done. Qed.

(** C5: an Analyzer that has been through [Restore] is not reproduced by
    [Save] then [Restore] into a fresh Analyzer: both calls succeed and the
    counters agree, but the sizes are 2 and 1. *)
Theorem Save_Restore_after_Restore_sizes_differ :
  let '(e1, e2, this, that) := fst (save_restored_then_restore world_empty) in
  e1 = None /\ e2 = None /\ frequency that = frequency this /\
  size this = 2 /\ size that = 1.
Proof. vm_compute. done. Qed.

(** C2, as stated, fails: the stream of [world_short_file] ends after one
    element, [Restore] returns the decoder's error, and the first counter
    has been overwritten. *)
Lemma Restore_error_overwrites_counters :
  ~ (fst (Restore 1%positive "model.gob" world_short_file) = Some GobError ->
     heap (snd (Restore 1%positive "model.gob" world_short_file)) !! 1%positive
     = heap world_short_file !! 1%positive).
Proof.
  intros Hclaim. specialize (Hclaim eq_refl).
  vm_compute in Hclaim. discriminate Hclaim.
Qed.

(** C2, amended: when [Restore] returns an error, [size] is as before the
    call; the frequency array is as before when the file could not be
    opened, and is the array as the decoder left it when decoding failed. *)
Theorem Restore_error_state `{Gob} (w : World) (a : loc) (path : string)
    (e : error) (s : Analyzer) :
  heap w !! a = Some s ->
  fst (Restore a path w) = Some e ->
  size (heap (snd (Restore a path w)) !!! a) = size s /\
  frequency (heap (snd (Restore a path w)) !!! a) =
    match fst (os_Open path w) with
    | inr _ => frequency s
    | inl d => fst (gob_Decode d (frequency s))
    end.
Proof.
  intros Hs. destruct (fst (os_Open path w)) as [d|e'] eqn:Ho.
  - rewrite (Restore_opened a path w d s Ho Hs). simpl.
    rewrite lookup_total_insert_eq.
    destruct (snd (gob_Decode d (frequency s))); [done|discriminate].
  - rewrite (Restore_open_error a path w e' Ho). simpl.
    by rewrite (lookup_total_correct _ _ _ Hs).
Qed.

Lemma Restore_error_state_witness :
  size (heap (snd (Restore 1%positive "model.gob" world_short_file)) !!! 1%positive)
    = size (feed [Byte.x61] Analyzer_zero) /\
  frequency (heap (snd (Restore 1%positive "model.gob" world_short_file)) !!! 1%positive) =
    match fst (os_Open "model.gob" world_short_file) with
    | inr _ => frequency (feed [Byte.x61] Analyzer_zero)
    | inl d => fst (gob_Decode d (frequency (feed [Byte.x61] Analyzer_zero)))
    end.
Proof.
  apply (Restore_error_state world_short_file 1%positive "model.gob"
           GobError (feed [Byte.x61] Analyzer_zero)).
  - reflexivity.
  - vm_compute. reflexivity.
Defined.

(** ** [int64] arithmetic *)

Lemma int64_wrap_small z : int64_min <= z <= int64_max -> int64_wrap z = z.
Proof.
  unfold int64_wrap, int64_min, int64_max. intros Hz.
  rewrite Z.mod_small; lia.
Qed.

Lemma int64_wrap_add_l x y : int64_wrap (int64_wrap x + y) = int64_wrap (x + y).
Proof.
  unfold int64_wrap. f_equal.
  replace ((x + 2 ^ 63) `mod` 2 ^ 64 - 2 ^ 63 + y + 2 ^ 63)
    with ((x + 2 ^ 63) `mod` 2 ^ 64 + y) by lia.
  rewrite Zplus_mod_idemp_l. f_equal. lia.
Qed.

Lemma int64_wrap_add_r x y : int64_wrap (x + int64_wrap y) = int64_wrap (x + y).
Proof. by rewrite (Z.add_comm x), int64_wrap_add_l, (Z.add_comm y). Qed.

(** ** What [Feed] counts *)

Lemma feed_snoc contents c a :
  feed (contents ++ [c]) a = feed_step (feed contents a) c.
Proof. unfold feed. by rewrite foldl_app. Qed.

Lemma feed_length contents a :
  length (frequency (feed contents a)) = length (frequency a).
Proof.
  induction contents as [|c contents IH] using rev_ind; [done|].
  rewrite feed_snoc. simpl. by rewrite length_alter.
Qed.

Lemma occurrences_snoc i contents c :
  occurrences i (contents ++ [c]) =
  (occurrences i contents + if decide (Byte.to_nat c = i) then 1 else 0)%nat.
Proof.
  unfold occurrences. rewrite filter_app, length_app. f_equal.
  rewrite filter_cons, filter_nil. by case_decide.
Qed.

Lemma occurrences_le i contents : (occurrences i contents <= length contents)%nat.
Proof. apply length_filter. Qed.

Lemma feed_size contents a :
  int64_wrap (size a) = size a ->
  size (feed contents a) = int64_wrap (size a + Z.of_nat (length contents)).
Proof.
  intros Ha. induction contents as [|c contents IH] using rev_ind.
  - simpl. by rewrite Z.add_0_r.
  - rewrite feed_snoc. simpl. rewrite IH, int64_wrap_add_l, length_app. simpl.
    f_equal. lia.
Qed.

Lemma feed_frequency contents a i :
  (i < length (frequency a))%nat ->
  int64_wrap (frequency a !!! i) = frequency a !!! i ->
  frequency (feed contents a) !!! i =
  int64_wrap (frequency a !!! i + Z.of_nat (occurrences i contents)).
Proof.
  intros Hi Ha. induction contents as [|c contents IH] using rev_ind.
  - simpl. by rewrite Z.add_0_r.
  - rewrite feed_snoc, occurrences_snoc. simpl.
    destruct (decide (Byte.to_nat c = i)) as [->|Hne].
    + rewrite list_lookup_total_alter_eq by (by rewrite feed_length).
      rewrite IH, int64_wrap_add_l. f_equal. lia.
    + rewrite list_lookup_total_alter_ne by done.
      rewrite IH. f_equal. lia.
Qed.

(** ** binary64: not-a-number *)

Lemma mul_nan_l x : (nan * x)%float = nan.
Proof. apply Prim2SF_inj. rewrite mul_spec. reflexivity. Qed.

Lemma mul_nan_r x : (x * nan)%float = nan.
Proof.
  apply Prim2SF_inj. rewrite mul_spec.
  change (Prim2SF nan) with S754_nan. by destruct (Prim2SF x).
Qed.

Lemma add_nan_r x : (x + nan)%float = nan.
Proof.
  apply Prim2SF_inj. rewrite add_spec.
  change (Prim2SF nan) with S754_nan. by destruct (Prim2SF x).
Qed.

Lemma sub_nan_r x : (x - nan)%float = nan.
Proof.
  apply Prim2SF_inj. rewrite sub_spec.
  change (Prim2SF nan) with S754_nan. by destruct (Prim2SF x).
Qed.

Lemma div_nan_l x : (nan / x)%float = nan.
Proof. apply Prim2SF_inj. rewrite div_spec. reflexivity. Qed.

Lemma relativeDifference_nan_r (r : float) : relativeDifference r nan = nan.
Proof.
  unfold relativeDifference. simpl.
  change (nan =? 0)%float with false. rewrite andb_false_r.
  rewrite sub_nan_r. change (abs nan) with nan. apply div_nan_l.
Qed.

Lemma foldl_absorbing {A B} (f : A -> B -> A) (z : A) (l : list B) (acc : A) :
  (forall acc i, i ∈ l -> f acc i = z) -> l <> [] -> foldl f acc l = z.
Proof.
  intros Hf Hl. induction l as [|x l IH] using rev_ind; [done|].
  rewrite foldl_app. simpl. apply Hf. set_solver.
Qed.

Lemma Analyzer_zero_frequency i :
  (i < 256)%nat -> frequency Analyzer_zero !!! i = 0.
Proof.
  intros Hi. change (frequency Analyzer_zero) with (replicate 256 0).
  by rewrite lookup_total_replicate_2.
Qed.

Lemma seq_256_nonempty : seq 0 256 <> [].
Proof. done. Qed.

Lemma in_seq_256 i : i ∈ seq 0 256 -> (i < 256)%nat.
Proof. rewrite elem_of_seq. lia. Qed.

(** An untrained reference: every [r] is [0/0]. *)
Lemma scoreFrequencies_untrained (target : Analyzer) :
  scoreFrequencies (F:=float) Analyzer_zero target = nan.
Proof.
  unfold scoreFrequencies. apply foldl_absorbing; [|apply seq_256_nonempty].
  intros acc i Hi. apply in_seq_256 in Hi. unfold score_step, normalized.
  rewrite Analyzer_zero_frequency by done. simpl.
  change (float_of_int64 0 / float_of_int64 0)%float with nan.
  by rewrite mul_nan_l, add_nan_r.
Qed.

(** An empty target: every [t] is [0/0]. *)
Lemma scoreFrequencies_empty_target (ref : Analyzer) :
  scoreFrequencies (F:=float) ref Analyzer_zero = nan.
Proof.
  unfold scoreFrequencies. apply foldl_absorbing; [|apply seq_256_nonempty].
  intros acc i Hi. apply in_seq_256 in Hi. unfold score_step, normalized.
  rewrite Analyzer_zero_frequency by done.
  change (f_of_int64 0 / f_of_int64 (size Analyzer_zero))%F with nan.
  rewrite relativeDifference_nan_r. simpl.
  change (1 - nan)%float with nan.
  by rewrite mul_nan_r, add_nan_r.
Qed.

(** C8: [Score] on an Analyzer that has not been fed, whatever the
    contents, and [Score] of the empty byte sequence on any Analyzer, return
    not-a-number. *)
Theorem Score_untrained_or_empty_is_nan `{Gob} (w : World) (a : loc)
    (contents : list Byte.byte) :
  fst ((fresh <- NewAnalyzer ;; Score (F:=float) fresh contents) w) = nan /\
  fst (Score (F:=float) a [] w) = nan.
Proof.
  split.
  - unfold bind at 1. unfold NewAnalyzer at 1. rewrite Score_run. simpl.
    rewrite lookup_total_insert_ne, lookup_total_insert_eq.
    + apply scoreFrequencies_untrained.
    + set (h := <[fresh (dom (heap w)) := Analyzer_zero]> (heap w)).
      intros Heq. apply (is_fresh (dom h)). rewrite Heq.
      apply elem_of_dom. subst h. rewrite lookup_insert_eq. by eexists.
  - rewrite Score_run. simpl. apply scoreFrequencies_empty_target.
Qed.

(** ** binary64: the relative difference is symmetric *)

Lemma SFabs_binary_round s m e :
  SFabs (binary_round prec emax s m e) = SFabs (binary_round prec emax false m e).
Proof.
  unfold binary_round.
  destruct (shl_align m e (fexp prec emax (Z.pos (digits2_pos m) + e))) as [mz ez].
  unfold binary_round_aux.
  destruct (shr_fexp prec emax (Z.pos mz) ez loc_Exact) as [mrs' e'].
  destruct (shr_fexp prec emax _ e' loc_Exact) as [mrs'' e''].
  destruct (shr_m mrs''); [done| |done].
  by destruct (e'' <=? emax - prec).
Qed.

Lemma SFabs_binary_normalize_opp z e :
  SFabs (binary_normalize prec emax (- z) e false) =
  SFabs (binary_normalize prec emax z e false).
Proof.
  destruct z as [|p|p]; simpl; [done| |];
    by rewrite (SFabs_binary_round true).
Qed.

Lemma SFabs_SFsub_comm x y : SFabs (SF64sub x y) = SFabs (SF64sub y x).
Proof.
  destruct x as [[]|[]| |sx mx ex], y as [[]|[]| |sy my ey]; try done.
  unfold SF64sub, SFsub. rewrite (Z.min_comm ey ex).
  rewrite <- SFabs_binary_normalize_opp. f_equal. f_equal. lia.
Qed.

Lemma abs_sub_comm (a b : float) : abs (a - b) = abs (b - a).
Proof.
  apply Prim2SF_inj. rewrite !abs_spec, !sub_spec. apply SFabs_SFsub_comm.
Qed.

Lemma nonneg_finite_intro (a : float) :
  (0 <=? a)%float = true -> (a <? infinity)%float = true ->
  nonneg_finite (Prim2SF a).
Proof.
  rewrite FloatAxioms.leb_spec, FloatAxioms.ltb_spec.
  change (Prim2SF 0) with (S754_zero false).
  change (Prim2SF infinity) with (S754_infinity false).
  destruct (Prim2SF a) as [s|s| |s m e]; simpl; try done.
  - by destruct s.
  - by destruct s.
Qed.

Lemma SFcompare_Eq_finite m1 e1 m2 e2 :
  SFcompare (S754_finite false m1 e1) (S754_finite false m2 e2) = Some Eq ->
  S754_finite false m1 e1 = S754_finite false m2 e2.
Proof.
  simpl. destruct (e1 ?= e2) eqn:He; try done.
  apply Z.compare_eq in He. intros [= Hm].
  apply Pos.compare_eq in Hm. by subst.
Qed.

Lemma SFcompare_finite_antisym m1 e1 m2 e2 :
  SFcompare (S754_finite false m2 e2) (S754_finite false m1 e1) =
  option_map CompOpp (SFcompare (S754_finite false m1 e1) (S754_finite false m2 e2)).
Proof.
  simpl. rewrite (Z.compare_antisym e1 e2).
  destruct (e1 ?= e2); simpl; try done.
  f_equal. apply (Pos.compare_antisym m1 m2).
Qed.

Lemma max_comm_nonneg (a b : float) :
  nonneg_finite (Prim2SF a) -> nonneg_finite (Prim2SF b) ->
  ((a =? 0) && (b =? 0))%float = false ->
  max a b = max b a.
Proof.
  unfold max. simpl. rewrite !FloatAxioms.eqb_spec, !FloatAxioms.ltb_spec.
  change (Prim2SF 0) with (S754_zero false).
  destruct (Prim2SF a) as [sa|sa| |sa ma ea] eqn:Ha,
           (Prim2SF b) as [sb|sb| |sb mb eb] eqn:Hb; simpl; try done.
  - by intros _ ->.
  - by intros -> _.
  - intros -> -> _. unfold SFltb.
    rewrite (SFcompare_finite_antisym ma ea mb eb).
    destruct (SFcompare (S754_finite false ma ea) (S754_finite false mb eb))
      as [[| |]|] eqn:Hc; simpl; try done.
    apply SFcompare_Eq_finite in Hc. rewrite <- Ha, <- Hb in Hc.
    by apply Prim2SF_inj in Hc.
Qed.

(** C10: on non-negative finite floats the relative difference does not
    depend on the order of its arguments. *)
Theorem relativeDifference_symmetric (a b : float) :
  (0 <=? a)%float = true -> (a <? infinity)%float = true ->
  (0 <=? b)%float = true -> (b <? infinity)%float = true ->
  relativeDifference a b = relativeDifference b a.
Proof.
  intros Ha0 Hai Hb0 Hbi.
  pose proof (nonneg_finite_intro a Ha0 Hai) as Ha.
  pose proof (nonneg_finite_intro b Hb0 Hbi) as Hb.
  unfold relativeDifference. simpl.
  rewrite (andb_comm (b =? 0)%float).
  destruct ((a =? 0) && (b =? 0))%float eqn:Hz; [done|].
  by rewrite abs_sub_comm, (max_comm_nonneg a b).
Qed.

Lemma relativeDifference_symmetric_witness :
  relativeDifference 0.25%float 0.75%float =
  relativeDifference 0.75%float 0.25%float.
Proof.
  apply relativeDifference_symmetric; reflexivity.
Defined.

(** ** binary64: digits, shifts and rounding

    The operations of binary64 are specified by [SpecFloat]; the lemmas
    below follow its rounding function on the mantissas and exponents the
    scores are computed from. *)

Lemma digits2_pos_size p : digits2_pos p = Pos.size p.
Proof. induction p as [p IH|p IH|]; simpl; by rewrite ?IH. Qed.

Lemma digits2_gt p : Z.pos p < 2 ^ Z.pos (digits2_pos p).
Proof.
  rewrite digits2_pos_size. pose proof (Pos.size_gt p) as Hp.
  pose proof (Pos2Z.inj_pow 2 (Pos.size p)) as Hpow. lia.
Qed.

Lemma digits2_le p : 2 ^ (Z.pos (digits2_pos p) - 1) <= Z.pos p.
Proof.
  rewrite digits2_pos_size. pose proof (Pos.size_le p) as Hp.
  assert (H2 : 2 ^ Z.pos (Pos.size p) <= 2 * Z.pos p).
  { pose proof (Pos2Z.inj_pow 2 (Pos.size p)) as Hpow. lia. }
  replace (Z.pos (Pos.size p)) with (Z.succ (Z.pos (Pos.size p) - 1)) in H2 by lia.
  rewrite Z.pow_succ_r in H2 by lia. lia.
Qed.

Lemma digits2_upper p k : Z.pos p < 2 ^ k -> Z.pos (digits2_pos p) <= k.
Proof.
  intros Hp. destruct (Z_le_gt_dec (Z.pos (digits2_pos p)) k) as [|Hgt]; [done|].
  pose proof (digits2_le p) as Hle.
  assert (2 ^ k <= 2 ^ (Z.pos (digits2_pos p) - 1)).
  { destruct (Z_lt_le_dec k 0).
    - rewrite (Z.pow_neg_r 2 k) by done. apply Z.pow_nonneg. lia.
    - apply Z.pow_le_mono_r; lia. }
  lia.
Qed.

Lemma Zdigits2_upper m k : 0 <= m < 2 ^ k -> 0 <= k -> Zdigits2 m <= k.
Proof.
  intros [Hm0 Hm] Hk. destruct m as [|p|p]; simpl; [done| |lia].
  by apply digits2_upper.
Qed.

Lemma Zdigits2_le m : 0 < m -> 2 ^ (Zdigits2 m - 1) <= m.
Proof. destruct m as [|p|p]; try lia. intros _. apply digits2_le. Qed.

Lemma Zdigits2_gt m : 0 <= m -> m < 2 ^ Zdigits2 m.
Proof.
  destruct m as [|p|p]; try lia; intros _; [done|]. apply digits2_gt.
Qed.

Lemma shr_1_m r : 0 <= shr_m r -> shr_m (shr_1 r) = shr_m r / 2.
Proof.
  destruct r as [m r s]. simpl. intros Hm. rewrite <- Z.div2_div.
  destruct m as [|[p|p|]|p]; try done; lia.
Qed.

Lemma iter_pos_shr_m n r :
  0 <= shr_m r -> shr_m (SpecFloat.iter_pos shr_1 n r) = shr_m r / 2 ^ Z.pos n.
Proof.
  revert r. induction n as [n IH|n IH|]; intros r Hr; simpl SpecFloat.iter_pos.
  - assert (H1 : 0 <= shr_m (shr_1 r)).
    { rewrite shr_1_m by done. by apply Z.div_pos. }
    assert (H2 : 0 <= shr_m (SpecFloat.iter_pos shr_1 n (shr_1 r))).
    { rewrite IH by done. apply Z.div_pos; [done|]. by apply Z.pow_pos_nonneg. }
    rewrite IH, IH, shr_1_m by done.
    assert (Hp : 0 < 2 ^ Z.pos n) by (by apply Z.pow_pos_nonneg).
    rewrite !Z.div_div by lia. f_equal.
    replace (Z.pos n~1) with (1 + Z.pos n + Z.pos n) by lia.
    rewrite !Z.pow_add_r by lia. ring.
  - assert (H2 : 0 <= shr_m (SpecFloat.iter_pos shr_1 n r)).
    { rewrite IH by done. apply Z.div_pos; [done|]. by apply Z.pow_pos_nonneg. }
    rewrite IH, IH by done.
    assert (Hp : 0 < 2 ^ Z.pos n) by (by apply Z.pow_pos_nonneg).
    rewrite !Z.div_div by lia. f_equal.
    replace (Z.pos n~0) with (Z.pos n + Z.pos n) by lia.
    rewrite !Z.pow_add_r by lia. ring.
  - rewrite shr_1_m by done. by rewrite Z.pow_1_r.
Qed.

Lemma shr_record_of_loc_m m l : shr_m (shr_record_of_loc m l) = m.
Proof. by destruct l as [|[]]. Qed.

Lemma fexp_binary64 x : fexp prec emax x = Z.max (x - 53) (-1074).
Proof. reflexivity. Qed.

(** One rounding shift: a non-negative mantissa comes out below [2^53],
    stays positive when it was, and the exponent grows by the number of
    digits dropped. *)
Lemma shr_fexp_spec m e l :
  0 <= m -> -1074 <= e ->
  exists r e1,
    shr_fexp prec emax m e l = (r, e1) /\
    0 <= shr_m r < 2 ^ 53 /\ (0 < m -> 0 < shr_m r) /\
    e <= e1 <= Z.max e (Zdigits2 m + e - 53).
Proof.
  intros Hm He. unfold shr_fexp, shr. rewrite fexp_binary64.
  pose proof (Zdigits2_gt m Hm) as Hgt.
  assert (Hd0 : 0 <= Zdigits2 m) by (destruct m; simpl; lia).
  assert (Hsmall : Zdigits2 m <= 53 -> m < 2 ^ 53).
  { intros Hd. eapply Z.lt_le_trans; [exact Hgt|].
    apply Z.pow_le_mono_r; lia. }
  destruct (Z.max (Zdigits2 m + e - 53) (-1074) - e) as [|n|n] eqn:Hn.
  - eexists _, _. split; [done|]. rewrite shr_record_of_loc_m. lia.
  - eexists _, _. split; [done|].
    rewrite iter_pos_shr_m by (rewrite shr_record_of_loc_m; lia).
    rewrite shr_record_of_loc_m.
    assert (Hn' : Z.pos n = Zdigits2 m - 53) by lia.
    assert (Hp : 0 < 2 ^ Z.pos n) by (by apply Z.pow_pos_nonneg).
    assert (Hsplit : 2 ^ Zdigits2 m = 2 ^ 53 * 2 ^ Z.pos n).
    { rewrite <- Z.pow_add_r by lia. f_equal. lia. }
    split; [split|split].
    + by apply Z.div_pos.
    + apply Z.div_lt_upper_bound; lia.
    + intros Hpos. apply Z.div_str_pos. split; [done|].
      pose proof (Zdigits2_le m Hpos) as Hle.
      eapply Z.le_trans; [|exact Hle]. apply Z.pow_le_mono_r; lia.
    + lia.
  - eexists _, _. split; [done|]. rewrite shr_record_of_loc_m. lia.
Qed.

Lemma round_nearest_even_bounds m l :
  m <= round_nearest_even m l <= m + 1.
Proof.
  destruct l as [|[]]; simpl; try lia. destruct (Z.even m); lia.
Qed.

(** Rounding a non-negative mantissa gives a zero or a finite float, with
    the sign given, provided the exponent stays in range. *)
Lemma binary_round_aux_cases s m e l :
  0 <= m -> -1074 <= e -> Z.max e (Zdigits2 m + e - 53) + 1 <= 971 ->
  (0 < m ->
   exists m' e', binary_round_aux prec emax s m e l = S754_finite s m' e' /\
                 e <= e' <= Z.max e (Zdigits2 m + e - 53) + 1) /\
  (binary_round_aux prec emax s m e l = S754_zero s \/
   exists m' e', binary_round_aux prec emax s m e l = S754_finite s m' e' /\
                 e <= e' <= Z.max e (Zdigits2 m + e - 53) + 1).
Proof.
  intros Hm He Hmax. unfold binary_round_aux.
  destruct (shr_fexp_spec m e l Hm He) as (r1 & e1 & -> & Hr1 & Hpos1 & He1).
  pose proof (round_nearest_even_bounds (shr_m r1) (loc_of_shr_record r1)) as Hrne.
  set (mr := round_nearest_even (shr_m r1) (loc_of_shr_record r1)) in *.
  assert (Hmr : 0 <= mr) by lia.
  assert (He1' : -1074 <= e1) by lia.
  destruct (shr_fexp_spec mr e1 loc_Exact Hmr He1') as (r2 & e2 & -> & Hr2 & Hpos2 & He2).
  assert (Hd : Zdigits2 mr <= 54).
  { apply Zdigits2_upper; [|lia]. split; [done|].
    change (2 ^ 54) with (2 * 2 ^ 53). lia. }
  assert (Hle : (e2 <=? emax - prec) = true).
  { apply Z.leb_le. change (emax - prec) with 971. lia. }
  split.
  - intros Hpos. specialize (Hpos1 Hpos).
    assert (Hmrpos : 0 < mr) by lia. specialize (Hpos2 Hmrpos).
    destruct (shr_m r2) as [|m'|m']; try lia.
    rewrite Hle. eexists _, _. split; [done|]. lia.
  - destruct (shr_m r2) as [|m'|m']; try lia; [by left|].
    right. rewrite Hle. eexists _, _. split; [done|]. lia.
Qed.

Lemma digits2_unique p k :
  2 ^ (k - 1) <= Z.pos p < 2 ^ k -> Z.pos (digits2_pos p) = k.
Proof.
  intros [Hlo Hhi]. pose proof (digits2_upper p k Hhi) as Hup.
  destruct (Z_le_gt_dec k (Z.pos (digits2_pos p))) as [|Hgt]; [lia|].
  pose proof (digits2_gt p) as Hp.
  assert (2 ^ Z.pos (digits2_pos p) <= 2 ^ (k - 1)).
  { apply Z.pow_le_mono_r; lia. }
  lia.
Qed.

Lemma pos_iter_xO p d : Z.pos (Pos.iter xO p d) = Z.pos p * 2 ^ Z.pos d.
Proof.
  induction d as [|d IH] using Pos.peano_ind.
  - simpl. lia.
  - rewrite Pos.iter_succ, Pos2Z.inj_xO, IH, Pos2Z.inj_succ.
    rewrite Z.pow_succ_r by lia. lia.
Qed.

(** What validity says of a finite float. *)
Lemma valid_finite s m e :
  valid_binary (S754_finite s m e) = true ->
  fexp prec emax (Z.pos (digits2_pos m) + e) = e /\ e <= 971 /\
  Z.pos m < 2 ^ 53.
Proof.
  simpl. unfold bounded, canonical_mantissa.
  rewrite andb_true_iff, Z.eqb_eq, Z.leb_le. intros [Hc He].
  change (emax - prec) with 971 in He. split; [done|]. split; [done|].
  rewrite fexp_binary64 in Hc.
  eapply Z.lt_le_trans; [apply digits2_gt|].
  apply Z.pow_le_mono_r; lia.
Qed.

(** Conversion of a positive [int64]. *)
Lemma binary_round_int p :
  Z.pos p < 2 ^ 63 ->
  exists m e, binary_round prec emax false p 0 = S754_finite false m e /\
              -52 <= e <= 12.
Proof.
  intros Hp. unfold binary_round. rewrite fexp_binary64.
  pose proof (digits2_upper p 63 Hp) as Hd.
  pose proof (digits2_gt p) as Hgt.
  assert (Hd1 : 1 <= Z.pos (digits2_pos p)) by lia.
  unfold shl_align.
  destruct (Z.max (Z.pos (digits2_pos p) + 0 - 53) (-1074) - 0) as [|k|k] eqn:Hk.
  - destruct (binary_round_aux_cases false (Z.pos p) 0 loc_Exact) as [Hfin _];
      [lia|lia|simpl; lia|].
    destruct (Hfin ltac:(lia)) as (m & e & -> & He). simpl in He.
    eexists _, _. split; [done|]. lia.
  - destruct (binary_round_aux_cases false (Z.pos p) 0 loc_Exact) as [Hfin _];
      [lia|lia|simpl; lia|].
    destruct (Hfin ltac:(lia)) as (m & e & -> & He). simpl in He.
    eexists _, _. split; [done|]. lia.
  - assert (Hmz : Z.pos (Pos.iter xO p k) < 2 ^ 53).
    { rewrite pos_iter_xO.
      replace 53 with (Z.pos (digits2_pos p) + Z.pos k) by lia.
      rewrite Z.pow_add_r by lia.
      apply Z.mul_lt_mono_pos_r; [by apply Z.pow_pos_nonneg|done]. }
    pose proof (digits2_upper _ 53 Hmz) as Hdz.
    set (ez := Z.max (Z.pos (digits2_pos p) + 0 - 53) (-1074)) in *.
    destruct (binary_round_aux_cases false (Z.pos (Pos.iter xO p k)) ez loc_Exact)
      as [Hfin _]; [lia|lia|simpl; lia|].
    destruct (Hfin ltac:(lia)) as (m & e & -> & He). simpl in He.
    eexists _, _. split; [done|]. lia.
Qed.

Lemma float_of_int64_pos n :
  0 < n < 2 ^ 63 ->
  exists m e, Prim2SF (float_of_int64 n) = S754_finite false m e /\
              -52 <= e <= 12 /\ Z.pos m < 2 ^ 53.
Proof.
  intros Hn. unfold float_of_int64.
  destruct (Z.ltb_spec n 0) as [|_]; [lia|].
  pose proof (Prim2SF_valid (of_uint63 (Uint63.of_Z n))) as Hvalid.
  rewrite of_uint63_spec, Uint63.of_Z_spec in *.
  change Uint63.wB with (2 ^ 63) in *.
  rewrite Z.mod_small in * by lia.
  destruct n as [|p|p]; try lia. simpl binary_normalize in *.
  destruct (binary_round_int p) as (m & e & Hr & He); [lia|].
  rewrite Hr in *. eexists _, _. split; [done|]. split; [done|].
  by apply valid_finite in Hvalid as (_ & _ & ?).
Qed.

Lemma float_of_int64_0 : Prim2SF (float_of_int64 0) = S754_zero false.
Proof. reflexivity. Qed.

(** ** binary64: the quotients and products of a score *)

Lemma div_eucl_div_mod a b : Z.div_eucl a b = (a / b, a mod b).
Proof. unfold Z.div, Z.modulo. by destruct (Z.div_eucl a b). Qed.

Lemma new_location_exact n : new_location n 0 = loc_Exact.
Proof. unfold new_location. by destruct (Z.even n). Qed.

(** [x / x = 1] for a finite [x]. *)
Lemma SFdiv_same s m e :
  SF64div (S754_finite s m e) (S754_finite s m e) = Prim2SF 1.
Proof.
  unfold SF64div, SFdiv, SFdiv_core_binary. simpl Zdigits2.
  rewrite Z.sub_diag, Z.sub_diag.
  change (Z.min (fexp prec emax 0) 0) with (-53).
  change (0 - -53) with 53.
  rewrite Z.shiftl_mul_pow2 by lia.
  rewrite div_eucl_div_mod, Z.mul_comm, Z_div_mult, Z_mod_mult by lia.
  rewrite new_location_exact, xorb_nilpotent. reflexivity.
Qed.

(** The quotient of two converted counters is a zero or a finite float. *)
Lemma SFdiv_bounded m1 e1 m2 e2 :
  Z.pos m1 < 2 ^ 53 -> Z.pos m2 < 2 ^ 53 ->
  -52 <= e1 <= 12 -> -52 <= e2 <= 12 ->
  SF64div (S754_finite false m1 e1) (S754_finite false m2 e2) = S754_zero false \/
  exists m e,
    SF64div (S754_finite false m1 e1) (S754_finite false m2 e2) =
    S754_finite false m e.
Proof.
  intros Hm1 Hm2 He1 He2. unfold SF64div, SFdiv, SFdiv_core_binary.
  simpl Zdigits2. rewrite fexp_binary64.
  pose proof (digits2_upper m1 53 Hm1) as Hd1.
  pose proof (digits2_upper m2 53 Hm2) as Hd2.
  set (d1 := Z.pos (digits2_pos m1)) in *.
  set (d2 := Z.pos (digits2_pos m2)) in *.
  assert (1 <= d1) by (subst d1; lia). assert (1 <= d2) by (subst d2; lia).
  set (e' := Z.min (Z.max (d1 + e1 - (d2 + e2) - 53) (-1074)) (e1 - e2)).
  assert (He' : -170 <= e' <= e1 - e2) by (subst e'; lia).
  set (sh := e1 - e2 - e').
  assert (Hsh : 0 <= sh) by (subst sh; lia).
  set (m' := match sh with
             | 0 => Z.pos m1
             | Z.pos _ => Z.pos m1 ≪ sh
             | Z.neg _ => 0
             end).
  assert (Hm' : m' = Z.pos m1 * 2 ^ sh).
  { subst m'. destruct sh as [|k|k] eqn:Hk; try lia.
    by rewrite Z.shiftl_mul_pow2. }
  assert (Hpow : 0 < 2 ^ sh) by (by apply Z.pow_pos_nonneg).
  rewrite div_eucl_div_mod. simpl xorb.
  set (q := m' / Z.pos m2).
  assert (Hq0 : 0 <= q) by (subst q; apply Z.div_pos; nia).
  assert (Hqm : q <= m').
  { subst q. apply Z.div_le_upper_bound; nia. }
  assert (Hq : q < 2 ^ (53 + sh)).
  { rewrite Z.pow_add_r by lia. nia. }
  pose proof (Zdigits2_upper q (53 + sh) (conj Hq0 Hq) ltac:(lia)) as Hdq.
  destruct (binary_round_aux_cases false q e' (new_location (Z.pos m2) (m' `mod` Z.pos m2)))
    as [_ [Hz|(m & e & Hf & _)]]; [done|lia|subst sh; lia| |].
  - by left.
  - right. by eexists _, _.
Qed.

(** [x * 1 = x] for a finite [x]. *)
Lemma SFmul_one_r s m e :
  valid_binary (S754_finite s m e) = true ->
  SF64mul (S754_finite s m e) (Prim2SF 1) = S754_finite s m e.
Proof.
  intros (Hc & He & Hm)%valid_finite.
  change (Prim2SF 1) with (S754_finite false 4503599627370496 (-52)).
  unfold SF64mul, SFmul, binary_round_aux, shr_fexp. simpl Zdigits2.
  assert (Hd : Z.pos (digits2_pos (m * 4503599627370496)) =
               Z.pos (digits2_pos m) + 52).
  { apply digits2_unique. rewrite Pos2Z.inj_mul.
    pose proof (digits2_le m). pose proof (digits2_gt m).
    change (Z.pos 4503599627370496) with (2 ^ 52).
    replace (Z.pos (digits2_pos m) + 52 - 1)
      with (Z.pos (digits2_pos m) - 1 + 52) by lia.
    rewrite !Z.pow_add_r by lia. lia. }
  rewrite Hd.
  replace (Z.pos (digits2_pos m) + 52 + (e + -52))
    with (Z.pos (digits2_pos m) + e) by lia.
  rewrite Hc. replace (e - (e + -52)) with 52 by lia.
  unfold shr. rewrite Pos.mul_comm.
  change (SpecFloat.iter_pos shr_1 52
            (shr_record_of_loc (Z.pos (4503599627370496 * m)) loc_Exact))
    with (shr_record_of_loc (Z.pos m) loc_Exact).
  simpl shr_m. simpl loc_of_shr_record. simpl round_nearest_even.
  simpl Zdigits2. replace (e + -52 + 52) with e by lia.
  rewrite Hc, Z.sub_diag. simpl.
  rewrite xorb_false_r.
  by destruct (Z.leb_spec e (emax - prec)) as [|Hgt];
    [|change (emax - prec) with 971 in Hgt; lia].
Qed.

Lemma SFsub_same s m e :
  SF64sub (S754_finite s m e) (S754_finite s m e) = S754_zero false.
Proof. unfold SF64sub, SFsub. by rewrite Z.sub_diag. Qed.

Lemma div_int64_same n :
  0 < n < 2 ^ 63 -> (float_of_int64 n / float_of_int64 n)%float = 1%float.
Proof.
  intros Hn. apply Prim2SF_inj. rewrite div_spec.
  destruct (float_of_int64_pos n Hn) as (m & e & -> & _).
  apply SFdiv_same.
Qed.

Lemma div_int64_zero n :
  0 < n < 2 ^ 63 -> (float_of_int64 0 / float_of_int64 n)%float = 0%float.
Proof.
  intros Hn. apply Prim2SF_inj. rewrite div_spec, float_of_int64_0.
  by destruct (float_of_int64_pos n Hn) as (m & e & -> & _).
Qed.

Lemma div_int64_nonneg_finite c n :
  0 <= c < 2 ^ 63 -> 0 < n < 2 ^ 63 ->
  nonneg_finite (Prim2SF (float_of_int64 c / float_of_int64 n)).
Proof.
  intros Hc Hn. destruct (Z.eq_dec c 0) as [->|Hc0].
  - by rewrite div_int64_zero.
  - rewrite div_spec.
    destruct (float_of_int64_pos c ltac:(lia)) as (m1 & e1 & -> & He1 & Hm1).
    destruct (float_of_int64_pos n Hn) as (m2 & e2 & -> & He2 & Hm2).
    by destruct (SFdiv_bounded m1 e1 m2 e2 Hm1 Hm2 He1 He2)
      as [->|(m & e & ->)].
Qed.

(** The relative difference of a non-negative finite float and itself. *)
Lemma relativeDifference_same (r : float) :
  nonneg_finite (Prim2SF r) -> relativeDifference r r = 0%float.
Proof.
  intros Hr. unfold relativeDifference, max. simpl.
  rewrite FloatAxioms.eqb_spec.
  change (Prim2SF 0) with (S754_zero false).
  destruct (Prim2SF r) as [s|s| |s m e] eqn:Hp; try done. simpl in Hr. subst s.
  change (SFeqb (S754_finite false m e) (S754_zero false)) with false.
  simpl andb.
  assert (Hsub : (r - r)%float = 0%float).
  { apply Prim2SF_inj. rewrite sub_spec, Hp. apply SFsub_same. }
  rewrite Hsub. change (abs 0) with 0%float.
  assert (Hmax : (if (r <? r)%float then r else r) = r) by (by destruct (r <? r)%float).
  rewrite Hmax. apply Prim2SF_inj. by rewrite div_spec, Hp.
Qed.

(** A term of the score when the target frequency equals the reference
    frequency. *)
Lemma score_term_same (r : float) :
  nonneg_finite (Prim2SF r) -> (r * (1 - relativeDifference r r))%float = r.
Proof.
  intros Hr. rewrite relativeDifference_same by done.
  change (1 - 0)%float with 1%float.
  apply Prim2SF_inj. rewrite mul_spec.
  pose proof (Prim2SF_valid r) as Hv.
  destruct (Prim2SF r) as [s|s| |s m e] eqn:Hp; try done.
  - change (Prim2SF 1) with (S754_finite false 4503599627370496 (-52)).
    by destruct s.
  - by apply SFmul_one_r.
Qed.

(** ** Scoring a trained Analyzer *)

Lemma feed_zero_size contents :
  Z.of_nat (length contents) < 2 ^ 63 ->
  size (feed contents Analyzer_zero) = Z.of_nat (length contents).
Proof.
  intros Hlen. rewrite feed_size by done. simpl.
  apply int64_wrap_small. unfold int64_min, int64_max. lia.
Qed.

Lemma feed_zero_frequency contents i :
  (i < 256)%nat -> Z.of_nat (length contents) < 2 ^ 63 ->
  frequency (feed contents Analyzer_zero) !!! i =
  Z.of_nat (occurrences i contents).
Proof.
  intros Hi Hlen.
  rewrite feed_frequency; rewrite ?Analyzer_zero_frequency by done; try done.
  pose proof (occurrences_le i contents). apply int64_wrap_small.
  unfold int64_min, int64_max. lia.
Qed.

Lemma train_then_Score `{Gob} {F : Type} `{Float64 F} corpus contents (w : World) :
  fst ((a <- NewAnalyzer ;; Feed a corpus ;;; Score (F:=F) a contents) w) =
  scoreFrequencies (feed corpus Analyzer_zero) (feed contents Analyzer_zero).
Proof.
  unfold bind at 1. unfold NewAnalyzer at 1. unfold bind at 1.
  rewrite Feed_run. simpl. rewrite alter_insert_eq, Score_run. simpl.
  set (a := fresh (dom (heap w))).
  set (h := <[a := feed corpus Analyzer_zero]> (heap w)).
  rewrite lookup_total_insert_ne.
  - subst h. by rewrite lookup_total_insert_eq.
  - intros Heq. apply (is_fresh (dom h)). rewrite Heq.
    apply elem_of_dom. subst h. rewrite lookup_insert_eq. by eexists.
Qed.

Lemma occurrences_replicate i n c :
  occurrences i (replicate n c) = if decide (Byte.to_nat c = i) then n else 0%nat.
Proof.
  unfold occurrences. induction n as [|n IH]; simpl.
  - by case_decide.
  - rewrite filter_cons. case_decide; simpl; by rewrite IH.
Qed.

Lemma Byte_to_nat_inj x y : Byte.to_nat x = Byte.to_nat y -> x = y.
Proof.
  intros Heq. pose proof (Byte.of_to_nat x) as Hx.
  rewrite Heq, Byte.of_to_nat in Hx. by injection Hx.
Qed.

Lemma foldl_fixed {A B} (f : A -> B -> A) (z : A) (l : list B) :
  (forall i, i ∈ l -> f z i = z) -> foldl f z l = z.
Proof.
  intros Hf. induction l as [|x l IH] using rev_ind; [done|].
  rewrite foldl_app. simpl. rewrite IH by set_solver. apply Hf. set_solver.
Qed.

(** C7: an Analyzer trained on occurrences of the byte [X] only scores
    contents made of occurrences of another byte [Y] only as exactly 0. *)
Theorem Score_disjoint_bytes_is_zero `{Gob} (w : World) (X Y : Byte.byte)
    (corpus contents : list Byte.byte) :
  X <> Y ->
  corpus <> [] -> Forall (fun c => X = c) corpus ->
  contents <> [] -> Forall (fun c => Y = c) contents ->
  Z.of_nat (length corpus) < 2 ^ 63 -> Z.of_nat (length contents) < 2 ^ 63 ->
  fst ((a <- NewAnalyzer ;;
        Feed a corpus ;;;
        Score (F:=float) a contents) w) = 0%float.
Proof.
  intros HXY Hcorpus HX Hcontents HY Hn63 Hm63.
  rewrite <- (replicate_as_Forall_2 X (length corpus) corpus eq_refl HX) in *.
  rewrite <- (replicate_as_Forall_2 Y (length contents) contents eq_refl HY) in *.
  set (n := length corpus) in *. set (m := length contents) in *.
  assert (Hn : (0 < n)%nat) by (destruct n; [done|lia]).
  assert (Hm : (0 < m)%nat) by (destruct m; [done|lia]).
  rewrite length_replicate in Hn63, Hm63.
  rewrite train_then_Score.
  unfold scoreFrequencies. apply foldl_fixed. intros i Hi%in_seq_256.
  unfold score_step, normalized.
  rewrite !feed_zero_frequency, !feed_zero_size
    by (rewrite ?length_replicate; done).
  rewrite !length_replicate, !occurrences_replicate. simpl.
  assert (HXYn : Byte.to_nat X <> Byte.to_nat Y).
  { intros Heq. by apply HXY, Byte_to_nat_inj. }
  destruct (decide (Byte.to_nat X = i)) as [HXi|HXi],
           (decide (Byte.to_nat Y = i)) as [HYi|HYi]; try congruence.
  - rewrite div_int64_same, div_int64_zero by lia. reflexivity.
  - rewrite div_int64_same, div_int64_zero by lia. reflexivity.
  - rewrite !div_int64_zero by lia. reflexivity.
Qed.

Lemma Score_disjoint_bytes_is_zero_witness :
  fst ((a <- NewAnalyzer ;;
        Feed a [Byte.x61; Byte.x61; Byte.x61] ;;;
        Score (F:=float) a [Byte.x62; Byte.x62]) world_empty) = 0%float.
Proof.
  apply (Score_disjoint_bytes_is_zero world_empty Byte.x61 Byte.x62
           [Byte.x61; Byte.x61; Byte.x61] [Byte.x62; Byte.x62]).
  - discriminate.
  - discriminate.
  - repeat constructor.
  - discriminate.
  - repeat constructor.
  - vm_compute. reflexivity.
  - vm_compute. reflexivity.
Defined.

(** ** Exact arithmetic: the terms of a score *)

Local Open Scope Q_scope.

Lemma relativeDifference_exact (r t : Q) :
  relativeDifference r t =
  if Qeq_bool r 0 && Qeq_bool t 0 then 0
  else Qabs (r - t) / (if negb (Qle_bool r t) then r else t).
Proof. reflexivity. Qed.


Lemma exact_term_same (r : Q) : r * (1 - relativeDifference r r) == r.
Proof.
  rewrite relativeDifference_exact.
  destruct (Qeq_bool r 0) eqn:Hr0; cbn [andb]; [ring|].
  apply Qeq_bool_neq in Hr0.
  assert (Hd : Qabs (r - r) == 0).
  { assert (Hz : r - r == 0) by ring. rewrite Hz. reflexivity. }
  assert (Hm : (if negb (Qle_bool r r) then r else r) = r)
    by (by destruct (negb (Qle_bool r r))).
  rewrite Hm, Hd. field. done.
Qed.

Lemma foldl_Qle (f g : Q -> nat -> Q) (l : list nat) (a b : Q) :
  a <= b ->
  (forall x y i, i ∈ l -> x <= y -> f x i <= g y i) ->
  foldl f a l <= foldl g b l.
Proof.
  revert a b. induction l as [|i l IH]; intros a b Hab Hfg; [done|].
  simpl. apply IH.
  - apply Hfg; [set_solver|done].
  - intros x y j Hj. apply Hfg. set_solver.
Qed.


(** Adding up quotients with one denominator. *)
Lemma foldl_ratio (c : nat -> Z) (n : Z) (l : list nat) (a : Q) :
  foldl (fun s i => s + inject_Z (c i) / inject_Z n) a l ==
  a + inject_Z (sum_over c l) / inject_Z n.
Proof.
  revert a. induction l as [|i l IH]; intros a; simpl.
  - unfold Qdiv. ring.
  - rewrite IH, inject_Z_plus. unfold Qdiv. ring.
Qed.

Local Close Scope Q_scope.

(** ** The counters add up to the number of bytes *)

Lemma sum_over_ext f g l :
  (forall i, f i = g i) -> sum_over f l = sum_over g l.
Proof. intros Hfg. induction l as [|i l IH]; simpl; [done|]. by rewrite IH, Hfg. Qed.

Lemma sum_over_add f g l :
  sum_over (fun i => f i + g i) l = sum_over f l + sum_over g l.
Proof. induction l as [|i l IH]; simpl; [done|]. rewrite IH. lia. Qed.

Lemma sum_over_indicator (c : nat) (start len : nat) :
  sum_over (fun i => if decide (c = i) then 1 else 0) (seq start len) =
  if decide (start <= c < start + len)%nat then 1 else 0.
Proof.
  revert start. induction len as [|len IH]; intros start; simpl.
  - case_decide; [lia|done].
  - rewrite IH. repeat case_decide; lia.
Qed.

Lemma occurrences_cons i c contents :
  occurrences i (c :: contents) =
  ((if decide (Byte.to_nat c = i) then 1 else 0) + occurrences i contents)%nat.
Proof. unfold occurrences. rewrite filter_cons. by case_decide. Qed.

Lemma sum_over_occurrences contents :
  sum_over (fun i => Z.of_nat (occurrences i contents)) (seq 0 256) =
  Z.of_nat (length contents).
Proof.
  induction contents as [|c contents IH].
  - by vm_compute.
  - transitivity
      (sum_over (fun i => (if decide (Byte.to_nat c = i) then 1 else 0) +
                          Z.of_nat (occurrences i contents)) (seq 0 256)).
    + apply sum_over_ext. intros i.
      rewrite occurrences_cons. case_decide; lia.
    + rewrite sum_over_add, IH, sum_over_indicator.
      pose proof (Byte.to_nat_bounded c).
      case_decide; simpl length; lia.
Qed.

(** ** The score in exact arithmetic *)


(** The normalized frequencies of fed contents, in exact arithmetic. *)
Lemma normalized_exact_fed contents i :
  (i < 256)%nat -> Z.of_nat (length contents) < 2 ^ 63 ->
  normalized (F:=Q) (feed contents Analyzer_zero) i =
  (inject_Z (Z.of_nat (occurrences i contents)) /
   inject_Z (Z.of_nat (length contents)))%Q.
Proof.
  intros Hi Hlen. unfold normalized.
  by rewrite feed_zero_frequency, feed_zero_size.
Qed.


(** The normalized frequencies of non-empty contents add up to 1. *)
Lemma normalized_exact_fed_sum contents (a : Q) :
  contents <> [] ->
  (foldl (fun s i => s + inject_Z (Z.of_nat (occurrences i contents)) /
                         inject_Z (Z.of_nat (length contents))) a (seq 0 256)
   == a + 1)%Q.
Proof.
  intros Hne. rewrite foldl_ratio, sum_over_occurrences.
  assert (0 < length contents)%nat by (destruct contents; simpl; [done|lia]).
  apply Qplus_inj_l. field.
  intros Hz. unfold Qeq in Hz. simpl in Hz. lia.
Qed.




(** ** The score of the training contents *)

Lemma foldl_ext_in {A B} (f g : A -> B -> A) (l : list B) (a : A) :
  (forall x i, i ∈ l -> f x i = g x i) -> foldl f a l = foldl g a l.
Proof.
  intros Hfg. induction l as [|i l IH] using rev_ind; [done|].
  rewrite !foldl_app. simpl. rewrite IH by set_solver. apply Hfg. set_solver.
Qed.

Lemma normalized_fed_nonneg_finite contents i :
  (i < 256)%nat -> contents <> [] -> Z.of_nat (length contents) < 2 ^ 63 ->
  nonneg_finite (Prim2SF (normalized (F:=float) (feed contents Analyzer_zero) i)).
Proof.
  intros Hi Hne Hlen. unfold normalized.
  rewrite feed_zero_frequency, feed_zero_size by done. simpl.
  pose proof (occurrences_le i contents).
  assert (0 < length contents)%nat by (destruct contents; simpl; [done|lia]).
  apply div_int64_nonneg_finite; lia.
Qed.

Lemma scoreFrequencies_exact_same contents :
  contents <> [] -> Z.of_nat (length contents) < 2 ^ 63 ->
  (scoreFrequencies (F:=Q) (feed contents Analyzer_zero)
                    (feed contents Analyzer_zero) == 1)%Q.
Proof.
  intros Hne Hlen. unfold scoreFrequencies.
  pose proof (normalized_exact_fed_sum contents 0 Hne) as Hsum.
  rewrite Qplus_0_l in Hsum. apply Qle_antisym.
  - rewrite <- Hsum. apply foldl_Qle; [done|].
    intros x y i Hi%in_seq_256 Hxy. unfold score_step.
    pose proof (exact_term_same (normalized (feed contents Analyzer_zero) i)) as Hs.
    rewrite normalized_exact_fed in * by done. simpl in *. lra.
  - rewrite <- Hsum. apply foldl_Qle; [done|].
    intros x y i Hi%in_seq_256 Hxy. unfold score_step.
    pose proof (exact_term_same (normalized (feed contents Analyzer_zero) i)) as Hs.
    rewrite normalized_exact_fed in * by done. simpl in *. lra.
Qed.

(** C3, as stated, fails: the score of ["abcdef"] on an Analyzer fed
    ["abcdef"] is not 1. *)
Lemma self_score_below_one :
  fst (train_and_score
         [Byte.x61; Byte.x62; Byte.x63; Byte.x64; Byte.x65; Byte.x66]
         world_empty) <> 1%float.
Proof.
  intros Hone.
  assert (Heqb : (fst (train_and_score
                    [Byte.x61; Byte.x62; Byte.x63; Byte.x64; Byte.x65; Byte.x66]
                    world_empty) =? 1)%float = true)
    by (by rewrite Hone).
  vm_compute in Heqb. discriminate Heqb.
Qed.

(** C3, amended: when non-empty contents are scored on an Analyzer fed
    those contents only, every relative difference is 0 and the score is
    the binary64 sum of the normalized frequencies, taken in the order of
    the byte values; in exact arithmetic the score is 1. *)
Theorem Score_of_itself `{Gob} (w : World) (contents : list Byte.byte) :
  contents <> [] -> Z.of_nat (length contents) < 2 ^ 63 ->
  (forall i, (i < 256)%nat ->
     relativeDifference (normalized (F:=float) (feed contents Analyzer_zero) i)
                        (normalized (feed contents Analyzer_zero) i) = 0%float) /\
  fst ((a <- NewAnalyzer ;; Feed a contents ;;; Score (F:=float) a contents) w) =
    foldl (fun score i =>
             (score + normalized (feed contents Analyzer_zero) i)%float)
          0%float (seq 0 256) /\
  (fst ((a <- NewAnalyzer ;; Feed a contents ;;; Score (F:=Q) a contents) w)
   == 1)%Q.
Proof.
  intros Hne Hlen. split; [|split].
  - intros i Hi. apply relativeDifference_same.
    by apply normalized_fed_nonneg_finite.
  - rewrite train_then_Score. unfold scoreFrequencies.
    apply foldl_ext_in. intros x i Hi%in_seq_256. unfold score_step.
    f_equal. apply score_term_same.
    by apply normalized_fed_nonneg_finite.
  - rewrite train_then_Score. by apply scoreFrequencies_exact_same.
Qed.

Lemma Score_of_itself_witness :
  (forall i, (i < 256)%nat ->
     relativeDifference
       (normalized (F:=float) (feed (replicate 3 Byte.x61 ++ replicate 3 Byte.x62) Analyzer_zero) i)
       (normalized (feed (replicate 3 Byte.x61 ++ replicate 3 Byte.x62) Analyzer_zero) i)
     = 0%float) /\
  fst ((a <- NewAnalyzer ;;
        Feed a (replicate 3 Byte.x61 ++ replicate 3 Byte.x62) ;;;
        Score (F:=float) a (replicate 3 Byte.x61 ++ replicate 3 Byte.x62))
         world_empty) =
    foldl (fun score i =>
             (score + normalized
                        (feed (replicate 3 Byte.x61 ++ replicate 3 Byte.x62)
                              Analyzer_zero) i)%float)
          0%float (seq 0 256) /\
  (fst ((a <- NewAnalyzer ;;
         Feed a (replicate 3 Byte.x61 ++ replicate 3 Byte.x62) ;;;
         Score (F:=Q) a (replicate 3 Byte.x61 ++ replicate 3 Byte.x62))
          world_empty)
   == 1)%Q.
Proof.
  apply (Score_of_itself world_empty (replicate 3 Byte.x61 ++ replicate 3 Byte.x62)).
  - discriminate.
  - vm_compute. reflexivity.
Defined.

(** ** The size invariant: kept by [Feed], set up by [Restore] only on a
    fresh Analyzer *)

Lemma int64_wrap_idem z : int64_wrap (int64_wrap z) = int64_wrap z.
Proof.
  transitivity (int64_wrap (int64_wrap z + 0)); [f_equal; lia|].
  rewrite int64_wrap_add_l. f_equal. lia.
Qed.

Lemma foldl_wrap_sum s0 l :
  int64_wrap (foldl (fun s v => int64_wrap (s + v)) s0 l) =
  int64_wrap (s0 + Zsum l).
Proof.
  revert s0. induction l as [|v l IH]; intros s0; simpl.
  - f_equal. lia.
  - rewrite IH, int64_wrap_add_l. f_equal. lia.
Qed.

Lemma foldl_wrap_in_range s0 l :
  int64_wrap s0 = s0 ->
  int64_wrap (foldl (fun s v => int64_wrap (s + v)) s0 l) =
  foldl (fun s v => int64_wrap (s + v)) s0 l.
Proof.
  revert s0. induction l as [|v l IH]; intros s0 Hs0; simpl; [done|].
  apply IH, int64_wrap_idem.
Qed.

Lemma sum_int64_Zsum l : sum_int64 l = int64_wrap (Zsum l).
Proof.
  unfold sum_int64. rewrite <- foldl_wrap_in_range by done.
  by rewrite foldl_wrap_sum.
Qed.

Lemma Zsum_alter (g : Z -> Z) i l :
  (i < length l)%nat ->
  Zsum (alter g i l) = Zsum l - l !!! i + g (l !!! i).
Proof.
  revert i. induction l as [|v l IH]; intros [|i] Hi; simpl in Hi; try lia.
  - change (Zsum (alter g 0%nat (v :: l))) with (g v + Zsum l).
    change (Zsum (v :: l)) with (v + Zsum l).
    change ((v :: l) !!! 0%nat) with v. lia.
  - change (Zsum (alter g (S i) (v :: l))) with (v + Zsum (alter g i l)).
    change (Zsum (v :: l)) with (v + Zsum l).
    change ((v :: l) !!! S i) with (l !!! i).
    rewrite IH by lia. lia.
Qed.

Lemma feed_step_size_is_sum a c :
  size_is_sum a -> size_is_sum (feed_step a c).
Proof.
  intros [Hlen Hsize]. split; simpl.
  - by rewrite length_alter.
  - pose proof (Byte.to_nat_bounded c).
    rewrite Hsize, !sum_int64_Zsum, Zsum_alter by lia.
    rewrite int64_wrap_add_l.
    rewrite int64_wrap_add_r. f_equal. lia.
Qed.

(** [Feed] keeps [size] equal to the sum of the counters. *)
Lemma feed_size_is_sum contents a :
  size_is_sum a -> size_is_sum (feed contents a).
Proof.
  intros Ha. induction contents as [|c contents IH] using rev_ind; [done|].
  rewrite feed_snoc. by apply feed_step_size_is_sum.
Qed.

Lemma Analyzer_zero_size_is_sum : size_is_sum Analyzer_zero.
Proof. split; by vm_compute. Qed.

Section RestoreSuccess.
Context `{Gob}.

(** A successful [Restore] stores the decoded counters and adds them to the
    [size] the Analyzer had. *)
Lemma Restore_success_state (w : World) a path s :
  heap w !! a = Some s ->
  fst (Restore a path w) = None ->
  exists d,
    fst (os_Open path w) = inl d /\
    snd (gob_Decode d (frequency s)) = None /\
    heap (snd (Restore a path w)) !! a =
      Some {| frequency := fst (gob_Decode d (frequency s));
              size := foldl (fun z v => int64_wrap (z + v)) (size s)
                            (fst (gob_Decode d (frequency s))) |}.
Proof.
  intros Hs. destruct (fst (os_Open path w)) as [d|e] eqn:Ho.
  - rewrite (Restore_opened a path w d s Ho Hs). simpl. intros Hok.
    exists d. split; [done|]. split; [done|].
    rewrite Hok, lookup_insert_eq. f_equal.
    set (decoded := fst (gob_Decode d (frequency s))).
    pose proof (add_sizes_frequency decoded (set_frequency decoded s)) as Hf.
    pose proof (add_sizes_size decoded (set_frequency decoded s)) as Hz.
    destruct (add_sizes decoded (set_frequency decoded s)) as [f z].
    simpl in *. by subst.
  - by rewrite (Restore_open_error a path w e Ho).
Qed.

(** On an Analyzer whose [size] is 0, a successful [Restore] leaves [size]
    equal to the sum of the decoded counters. *)
Lemma Restore_fresh_size (w : World) a path s :
  heap w !! a = Some s -> size s = 0 ->
  fst (Restore a path w) = None ->
  size (heap (snd (Restore a path w)) !!! a) =
  sum_int64 (frequency (heap (snd (Restore a path w)) !!! a)).
Proof.
  intros Hs Hz Hok.
  destruct (Restore_success_state w a path s Hs Hok) as (d & _ & _ & Hh).
  rewrite (lookup_total_correct _ _ _ Hh). simpl. by rewrite Hz.
Qed.
End RestoreSuccess.

(** ** Saving, then restoring into a fresh Analyzer *)

Section RoundTrip.
Context `{Gob}.

(** What a codec must do for [Save] and [Restore] to be of use: a value
    that was encoded without error decodes to itself. *)
Hypothesis gob_round_trip : forall v d v0 v',
  gob_Encode v = (d, None) -> gob_Decode d v0 = (v', None) -> v' = v.

Lemma Save_success (w : World) a path :
  fst (Save a path w) = None ->
  (path ∉ denied w) /\
  exists d, gob_Encode (frequency (heap w !!! a)) = (d, None) /\
            snd (Save a path w) =
            mkWorld (heap w) (<[path := d]> (disk w)) (denied w).
Proof.
  unfold Save, bind, os_Create, load, write_file, ret.
  destruct (decide (path ∈ denied w)) as [|Hp]; [done|].
  destruct (gob_Encode (frequency (heap w !!! a))) as [d [e|]]; [done|].
  intros _. split; [done|]. by exists d.
Qed.

(** When [size] is the sum of the counters, [Save] followed by [Restore]
    into a new Analyzer reproduces the counters and the size. *)
Lemma Save_Restore_round_trip (w : World) a path s :
  heap w !! a = Some s ->
  size s = sum_int64 (frequency s) ->
  fst (Save a path w) = None ->
  fst (Restore (fst (NewAnalyzer (snd (Save a path w)))) path
               (snd (NewAnalyzer (snd (Save a path w))))) = None ->
  heap (snd (Restore (fst (NewAnalyzer (snd (Save a path w)))) path
                     (snd (NewAnalyzer (snd (Save a path w))))))
    !! fst (NewAnalyzer (snd (Save a path w))) = Some s.
Proof.
  intros Hs Hsum Hsave.
  destruct (Save_success w a path Hsave) as (Hp & d & Henc & ->).
  rewrite (lookup_total_correct _ _ _ Hs) in Henc.
  unfold NewAnalyzer. simpl.
  set (b := fresh (dom (heap w))).
  set (w2 := mkWorld (<[b := Analyzer_zero]> (heap w)) (<[path := d]> (disk w))
                     (denied w)).
  assert (Hb : heap w2 !! b = Some Analyzer_zero) by apply lookup_insert_eq.
  intros Hok.
  destruct (Restore_success_state w2 b path Analyzer_zero Hb Hok)
    as (d' & Ho & Hdec & ->).
  assert (d' = d) as ->.
  { unfold os_Open in Ho. simpl in Ho.
    destruct (decide (path ∈ denied w)); [done|].
    rewrite lookup_insert_eq in Ho. simpl in Ho. congruence. }
  destruct (gob_Decode d (frequency Analyzer_zero)) as [v' e] eqn:Hd.
  simpl in Hdec. subst e.
  rewrite (gob_round_trip _ _ _ _ Henc Hd). simpl.
  f_equal. destruct s as [f z]. simpl in *. by rewrite Hsum.
Qed.
End RoundTrip.

(** The stand-in codec decodes what it encoded. *)
Lemma decode_elements_all i input v :
  (i + length input = length v)%nat ->
  decode_elements i (length input) input v = (take i v ++ input, None).
Proof.
  revert i v. induction input as [|x input IH]; intros i v Hlen; simpl in *.
  - rewrite app_nil_r, take_ge by lia. done.
  - rewrite IH by (rewrite length_insert; lia). f_equal.
    rewrite (take_S_r _ _ x) by (rewrite list_lookup_insert_eq; [done|lia]).
    by rewrite take_insert_ge, <- app_assoc by lia.
Qed.

Lemma stream_gob_round_trip v d v0 v' :
  @gob_Encode stream_gob v = (d, None) ->
  @gob_Decode stream_gob d v0 = (v', None) -> v' = v.
Proof.
  simpl. intros [= <-]. unfold stream_Decode. simpl.
  case_decide as Hlen; [|done]. rewrite <- Hlen.
  rewrite decode_elements_all by lia. by intros [= <-].
Qed.

(** * Further properties of the package *)

(** ** [Feed] *)

Lemma Analyzer_typed_lookup s i :
  Analyzer_typed s -> (i < 256)%nat ->
  int64_wrap (frequency s !!! i) = frequency s !!! i.
Proof.
  intros (Hlen & Hfreq & _) Hi. apply int64_wrap_small.
  destruct (lookup_lt_is_Some_2 (frequency s) i) as [v Hv]; [lia|].
  rewrite (list_lookup_total_correct _ _ _ Hv).
  by apply (Forall_lookup_1 _ _ _ _ Hfreq Hv).
Qed.

Lemma Feed_receiver `{Gob} (w : World) a s contents :
  heap w !! a = Some s ->
  heap (snd (Feed a contents w)) !!! a = feed contents s.
Proof.
  intros Hs. rewrite Feed_run. simpl.
  by rewrite lookup_total_alter_eq, Hs.
Qed.

(** X1: [Feed] adds to each counter the number of occurrences of its byte
    in the contents, and to [size] the length of the contents, with the
    wrap-around of [int64]; the array keeps its 256 entries. *)
Theorem Feed_adds_occurrences `{Gob} (w : World) (a : loc) (s : Analyzer)
    (contents : list Byte.byte) (i : nat) :
  heap w !! a = Some s -> Analyzer_typed s -> (i < 256)%nat ->
  frequency (heap (snd (Feed a contents w)) !!! a) !!! i =
    int64_wrap (frequency s !!! i + Z.of_nat (occurrences i contents)) /\
  size (heap (snd (Feed a contents w)) !!! a) =
    int64_wrap (size s + Z.of_nat (length contents)) /\
  length (frequency (heap (snd (Feed a contents w)) !!! a)) = 256%nat.
Proof.
  intros Hs Htyped Hi. rewrite (Feed_receiver w a s contents Hs).
  pose proof Htyped as (Hlen & _ & Hsize).
  split; [|split].
  - apply feed_frequency; [lia|]. by apply Analyzer_typed_lookup.
  - apply feed_size. by apply int64_wrap_small.
  - by rewrite feed_length.
Qed.

Lemma Feed_adds_occurrences_witness :
  frequency (heap (snd (Feed 1%positive [Byte.x61; Byte.x62; Byte.x61] world_one))
               !!! 1%positive) !!! 97%nat =
    int64_wrap (frequency (feed [Byte.x61] Analyzer_zero) !!! 97%nat +
                Z.of_nat (occurrences 97 [Byte.x61; Byte.x62; Byte.x61])) /\
  size (heap (snd (Feed 1%positive [Byte.x61; Byte.x62; Byte.x61] world_one))
          !!! 1%positive) =
    int64_wrap (size (feed [Byte.x61] Analyzer_zero) +
                Z.of_nat (length [Byte.x61; Byte.x62; Byte.x61])) /\
  length (frequency (heap (snd (Feed 1%positive [Byte.x61; Byte.x62; Byte.x61]
                                     world_one)) !!! 1%positive)) = 256%nat.
Proof.
  apply (Feed_adds_occurrences world_one 1%positive
           (feed [Byte.x61] Analyzer_zero) [Byte.x61; Byte.x62; Byte.x61] 97).
  - reflexivity.
  - split; [reflexivity|]. split.
    + apply (bool_decide_unpack _). vm_compute. exact I.
    + vm_compute. split; discriminate.
  - lia.
Defined.

Lemma range_Feed `{Gob} (w : World) a (chunks : list (list Byte.byte)) :
  range chunks (Feed a) w =
  (tt, mkWorld (alter (feed (concat chunks)) a (heap w)) (disk w) (denied w)).
Proof.
  revert w. induction chunks as [|c chunks IH]; intros w; simpl.
  - unfold ret. f_equal. rewrite <- (World_eta w) at 1. f_equal.
    symmetry. by apply alter_id.
  - unfold bind. rewrite Feed_run, IH. simpl.
    rewrite alter_alter_eq. f_equal. f_equal.
    apply alter_ext. intros s _. simpl. by rewrite feed_app.
Qed.

(** X2: after any number of [Feed] calls on a new Analyzer, each counter is
    the number of occurrences of its byte in all the contents fed, and
    [size] is the number of bytes fed. *)
Theorem Feed_calls_count_bytes `{Gob} (w : World)
    (chunks : list (list Byte.byte)) (i : nat) :
  Z.of_nat (length (concat chunks)) < 2 ^ 63 -> (i < 256)%nat ->
  frequency (fst ((a <- NewAnalyzer ;; range chunks (Feed a) ;;; load a) w)) !!! i =
    Z.of_nat (occurrences i (concat chunks)) /\
  size (fst ((a <- NewAnalyzer ;; range chunks (Feed a) ;;; load a) w)) =
    Z.of_nat (length (concat chunks)).
Proof.
  intros Hlen Hi.
  assert (Hrun : fst ((a <- NewAnalyzer ;; range chunks (Feed a) ;;; load a) w) =
                 feed (concat chunks) Analyzer_zero).
  { unfold bind, NewAnalyzer, load. rewrite range_Feed. simpl.
    by rewrite alter_insert_eq, lookup_total_insert_eq. }
  rewrite Hrun. split.
  - by apply feed_zero_frequency.
  - by apply feed_zero_size.
Qed.

Lemma Feed_calls_count_bytes_witness :
  frequency (fst ((a <- NewAnalyzer ;;
                   range [[Byte.x61; Byte.x62]; []; [Byte.x61]] (Feed a) ;;;
                   load a) world_empty)) !!! 97%nat =
    Z.of_nat (occurrences 97 (concat [[Byte.x61; Byte.x62]; []; [Byte.x61]])) /\
  size (fst ((a <- NewAnalyzer ;;
              range [[Byte.x61; Byte.x62]; []; [Byte.x61]] (Feed a) ;;;
              load a) world_empty)) =
    Z.of_nat (length (concat [[Byte.x61; Byte.x62]; []; [Byte.x61]])).
Proof.
  apply (Feed_calls_count_bytes world_empty
           [[Byte.x61; Byte.x62]; []; [Byte.x61]] 97).
  - vm_compute. reflexivity.
  - lia.
Defined.

(** X3: [Feed] keeps [size] equal to the sum of the 256 counters. *)
Theorem Feed_keeps_size_is_sum `{Gob} (w : World) (a : loc) (s : Analyzer)
    (contents : list Byte.byte) :
  heap w !! a = Some s -> size_is_sum s ->
  size_is_sum (heap (snd (Feed a contents w)) !!! a).
Proof.
  intros Hs Hinv. rewrite (Feed_receiver w a s contents Hs).
  by apply feed_size_is_sum.
Qed.

Lemma Feed_keeps_size_is_sum_witness :
  size_is_sum (heap (snd (Feed 1%positive [Byte.x62; Byte.x61] world_one))
                 !!! 1%positive).
Proof.
  apply (Feed_keeps_size_is_sum world_one 1%positive
           (feed [Byte.x61] Analyzer_zero) [Byte.x62; Byte.x61]).
  - reflexivity.
  - split; vm_compute; reflexivity.
Defined.

Lemma feed_Permutation contents contents' a :
  contents ≡ₚ contents' -> feed contents a = feed contents' a.
Proof.
  intros Hperm. revert a.
  induction Hperm as [|c l l' _ IH|c1 c2 l|l1 l2 l3 _ IH1 _ IH2]; intros a.
  - done.
  - apply (IH (feed_step a c)).
  - change (feed l (feed_step (feed_step a c2) c1) =
            feed l (feed_step (feed_step a c1) c2)).
    by rewrite feed_step_comm.
  - by rewrite IH1, IH2.
Qed.

(** X4: the order of the bytes does not matter: contents that are a
    permutation of one another have the same effect when fed and get the
    same score. *)
Theorem Feed_Score_order_of_bytes `{Gob} {F : Type} `{Float64 F} (w : World)
    (a : loc) (contents contents' : list Byte.byte) :
  contents ≡ₚ contents' ->
  Feed a contents w = Feed a contents' w /\
  Score (F:=F) a contents w = Score (F:=F) a contents' w.
Proof.
  intros Hperm. split.
  - rewrite !Feed_run. f_equal. f_equal. apply alter_ext. intros s _.
    by apply feed_Permutation.
  - rewrite !Score_run.
    by rewrite (feed_Permutation contents contents' Analyzer_zero Hperm).
Qed.

Lemma Feed_Score_order_of_bytes_witness :
  Feed 1%positive [Byte.x61; Byte.x62; Byte.x63] world_one =
  Feed 1%positive [Byte.x63; Byte.x61; Byte.x62] world_one /\
  Score (F:=float) 1%positive [Byte.x61; Byte.x62; Byte.x63] world_one =
  Score (F:=float) 1%positive [Byte.x63; Byte.x61; Byte.x62] world_one.
Proof.
  apply (Feed_Score_order_of_bytes world_one 1%positive
           [Byte.x61; Byte.x62; Byte.x63] [Byte.x63; Byte.x61; Byte.x62]).
  symmetry. apply (Permutation_cons_append [Byte.x61; Byte.x62] Byte.x63).
Defined.

(** X5: [Feed] writes the receiver only: the other Analyzers, the files
    and the access rights are as before. *)
Theorem Feed_writes_receiver_only `{Gob} (w : World) (a : loc)
    (contents : list Byte.byte) :
  delete a (heap (snd (Feed a contents w))) = delete a (heap w) /\
  disk (snd (Feed a contents w)) = disk w /\
  denied (snd (Feed a contents w)) = denied w.
Proof. rewrite Feed_run. simpl. by rewrite delete_alter_eq. Qed.

(** ** [Score], [Save] and [Restore]: what they write *)


(** X7: [Save] to a path that cannot be created returns the error of
    [os.Create] and changes nothing. *)
Theorem Save_denied_path `{Gob} (w : World) (a : loc) (path : string) :
  path ∈ denied w -> Save a path w = (Some PathError, w).
Proof.
  intros Hp. unfold Save, bind, os_Create.
  by destruct (decide (path ∈ denied w)).
Qed.

Lemma Save_denied_path_witness :
  Save 1%positive "locked.gob" world_files = (Some PathError, world_files).
Proof.
  apply (Save_denied_path world_files 1%positive "locked.gob").
  apply (bool_decide_unpack _). vm_compute. exact I.
Defined.

(** X8: [Save] to a path that can be created puts there what the encoder
    wrote for the counters, whatever was there before, returns the
    encoder's error, and changes neither an Analyzer nor another file; the
    file does not depend on [size]. *)
Theorem Save_writes_encoded_counters `{Gob} (w : World) (a : loc)
    (path : string) (s : Analyzer) :
  path ∉ denied w -> heap w !! a = Some s ->
  Save a path w =
  (snd (gob_Encode (frequency s)),
   mkWorld (heap w) (<[path := fst (gob_Encode (frequency s))]> (disk w))
           (denied w)).
Proof.
  intros Hp Hs. unfold Save, bind, os_Create, load, write_file, ret.
  destruct (decide (path ∈ denied w)); [done|].
  rewrite (lookup_total_correct _ _ _ Hs).
  by destruct (gob_Encode (frequency s)) as [d [e|]].
Qed.

Lemma Save_writes_encoded_counters_witness :
  Save 1%positive "zero.gob" world_files =
  (snd (@gob_Encode stream_gob (frequency (feed [Byte.x61] Analyzer_zero))),
   mkWorld (heap world_files)
           (<["zero.gob"%string :=
                fst (@gob_Encode stream_gob
                       (frequency (feed [Byte.x61] Analyzer_zero)))]>
              (disk world_files))
           (denied world_files)).
Proof.
  apply (Save_writes_encoded_counters world_files 1%positive "zero.gob"
           (feed [Byte.x61] Analyzer_zero)).
  - apply (bool_decide_unpack _). vm_compute. exact I.
  - reflexivity.
Defined.

(** X9: [Restore] from a path that cannot be opened, or where there is no
    file, returns the error of [os.Open] and changes nothing. *)
Theorem Restore_unreadable_path `{Gob} (w : World) (a : loc) (path : string) :
  path ∈ denied w \/ disk w !! path = None ->
  Restore a path w = (Some PathError, w).
Proof.
  intros Hp. apply Restore_open_error. unfold os_Open.
  destruct (decide (path ∈ denied w)); [done|].
  destruct Hp as [?|Hnone]; [done|]. by rewrite Hnone.
Qed.

Lemma Restore_unreadable_path_witness :
  Restore 1%positive "missing.gob" world_files = (Some PathError, world_files).
Proof.
  apply (Restore_unreadable_path world_files 1%positive "missing.gob").
  right. reflexivity.
Defined.

(** X10: [Restore] writes the receiver only: the other Analyzers, the
    files and the access rights are as before, on success and on error. *)
Theorem Restore_writes_receiver_only `{Gob} (w : World) (a : loc)
    (path : string) :
  delete a (heap (snd (Restore a path w))) = delete a (heap w) /\
  disk (snd (Restore a path w)) = disk w /\
  denied (snd (Restore a path w)) = denied w.
Proof.
  assert (Hrun : exists f, snd (Restore a path w) =
                           mkWorld (alter f a (heap w)) (disk w) (denied w)).
  { unfold Restore, bind.
    destruct (os_Open path w) as [o w'] eqn:Ho.
    pose proof (os_Open_world path w) as Hw. rewrite Ho in Hw. simpl in Hw.
    subst w'. destruct o as [d|e].
    - unfold load at 1.
      destruct (gob_Decode d (frequency (heap w !!! a))) as [decoded [e|]];
        simpl.
      + by eexists.
      + unfold load. rewrite range_update. simpl.
        rewrite alter_alter_eq. by eexists.
    - exists (fun s => s). simpl. rewrite <- (World_eta w) at 1. f_equal.
      symmetry. by apply alter_id. }
  destruct Hrun as [f ->]. simpl. by rewrite delete_alter_eq.
Qed.

(** X11: a successful [Restore] stores the counters the decoder produced
    from the file and adds their sum to the [size] the Analyzer had, with
    the wrap-around of [int64]. *)
Theorem Restore_success_adds_sum `{Gob} (w : World) (a : loc) (path : string)
    (s : Analyzer) :
  heap w !! a = Some s -> int64_min <= size s <= int64_max ->
  fst (Restore a path w) = None ->
  exists d,
    (path ∉ denied w) /\ disk w !! path = Some d /\
    gob_Decode d (frequency s) =
      (frequency (heap (snd (Restore a path w)) !!! a), None) /\
    size (heap (snd (Restore a path w)) !!! a) =
      int64_wrap (size s +
                  Zsum (frequency (heap (snd (Restore a path w)) !!! a))).
Proof.
  intros Hs Hsize Hok.
  destruct (Restore_success_state w a path s Hs Hok) as (d & Ho & Hdec & Hh).
  rewrite (lookup_total_correct _ _ _ Hh). simpl. exists d.
  unfold os_Open in Ho.
  destruct (decide (path ∈ denied w)) as [|Hp]; [done|].
  destruct (disk w !! path) as [d'|] eqn:Hd; [|done].
  simpl in Ho. injection Ho as ->.
  split; [done|]. split; [done|]. split.
  - by destruct (gob_Decode d (frequency s)) as [v e]; simpl in *; subst.
  - rewrite <- foldl_wrap_sum. symmetry. apply foldl_wrap_in_range.
    by apply int64_wrap_small.
Qed.

Lemma Restore_success_adds_sum_witness :
  exists d,
    ("zero.gob"%string ∉ denied world_files) /\
    disk world_files !! "zero.gob"%string = Some d /\
    @gob_Decode stream_gob d (frequency (feed [Byte.x61] Analyzer_zero)) =
      (frequency (heap (snd (Restore 1%positive "zero.gob" world_files))
                    !!! 1%positive), None) /\
    size (heap (snd (Restore 1%positive "zero.gob" world_files)) !!! 1%positive) =
      int64_wrap (size (feed [Byte.x61] Analyzer_zero) +
                  Zsum (frequency (heap (snd (Restore 1%positive "zero.gob"
                                                      world_files))
                                     !!! 1%positive))).
Proof.
  apply (Restore_success_adds_sum world_files 1%positive "zero.gob"
           (feed [Byte.x61] Analyzer_zero)).
  - reflexivity.
  - vm_compute. split; discriminate.
  - vm_compute. reflexivity.
Defined.

(** X12: a successful [Restore] into a new Analyzer leaves [size] equal to
    the sum of the restored counters. *)
Theorem Restore_into_new_size_is_sum `{Gob} (w : World) (path : string) :
  fst (fst (restore_into_new path w)) = None ->
  size (snd (fst (restore_into_new path w))) =
  sum_int64 (frequency (snd (fst (restore_into_new path w)))).
Proof.
  unfold restore_into_new, bind, NewAnalyzer, load, ret.
  set (b := fresh (dom (heap w))).
  set (w1 := mkWorld (<[b := Analyzer_zero]> (heap w)) (disk w) (denied w)).
  destruct (Restore b path w1) as [err w2] eqn:Hr. simpl. intros ->.
  assert (Hb : heap w1 !! b = Some Analyzer_zero) by apply lookup_insert_eq.
  pose proof (Restore_fresh_size w1 b path Analyzer_zero Hb eq_refl) as Hf.
  rewrite Hr in Hf. by apply Hf.
Qed.

Lemma Restore_into_new_size_is_sum_witness :
  size (snd (fst (restore_into_new "zero.gob" world_files))) =
  sum_int64 (frequency (snd (fst (restore_into_new "zero.gob" world_files)))).
Proof.
  apply (Restore_into_new_size_is_sum world_files "zero.gob").
  vm_compute. reflexivity.
Defined.

(** X13: with a codec that decodes what it encoded, [Save] followed by
    [Restore] into a new Analyzer, both without error, reproduces an
    Analyzer whose [size] is the sum of its counters. *)
Theorem Save_then_Restore_reproduces `{Gob} (w : World) (a : loc)
    (path : string) (s : Analyzer) :
  (forall v d v0 v',
     gob_Encode v = (d, None) -> gob_Decode d v0 = (v', None) -> v' = v) ->
  heap w !! a = Some s -> size s = sum_int64 (frequency s) ->
  fst (fst (fst (save_then_restore_into_new a path w))) = None ->
  snd (fst (fst (save_then_restore_into_new a path w))) = None ->
  snd (fst (save_then_restore_into_new a path w)) = s.
Proof.
  intros Hgob Hs Hsum.
  pose proof (Save_Restore_round_trip Hgob w a path s Hs Hsum) as Hrt.
  unfold save_then_restore_into_new, bind, load, ret.
  destruct (Save a path w) as [e1 w1] eqn:Hsave.
  unfold NewAnalyzer in *. simpl in *.
  destruct (Restore (fresh (dom (heap w1))) path _) as [e2 w3] eqn:Hrest.
  simpl in *. intros -> ->.
  by rewrite (lookup_total_correct _ _ _ (Hrt eq_refl eq_refl)).
Qed.

Lemma Save_then_Restore_reproduces_witness :
  snd (fst (@save_then_restore_into_new stream_gob 1%positive "copy.gob"
              world_files)) =
  feed [Byte.x61] Analyzer_zero.
Proof.
  apply (@Save_then_Restore_reproduces stream_gob world_files 1%positive
           "copy.gob" (feed [Byte.x61] Analyzer_zero)).
  - exact stream_gob_round_trip.
  - reflexivity.
  - vm_compute. reflexivity.
  - vm_compute. reflexivity.
  - vm_compute. reflexivity.
Defined.

(** ** Scores on binary64: bytes that one side lacks *)

Lemma positive_finite_intro (a : float) :
  (0 <? a)%float = true -> (a <? infinity)%float = true ->
  exists m e, Prim2SF a = S754_finite false m e.
Proof.
  rewrite !FloatAxioms.ltb_spec.
  change (Prim2SF 0) with (S754_zero false).
  change (Prim2SF infinity) with (S754_infinity false).
  destruct (Prim2SF a) as [s|s| |s m e]; simpl; try done.
  - by destruct s.
  - destruct s; [done|]. by eexists _, _.
Qed.

Lemma div_same_finite (a : float) m e :
  Prim2SF a = S754_finite false m e -> (a / a)%float = 1%float.
Proof.
  intros Ha. apply Prim2SF_inj. rewrite div_spec, Ha. apply SFdiv_same.
Qed.

(** A positive finite float against zero: the difference is total. *)
Lemma relativeDifference_positive_zero (a : float) m e :
  Prim2SF a = S754_finite false m e ->
  relativeDifference a 0%float = 1%float /\
  relativeDifference 0%float a = 1%float.
Proof.
  intros Ha. unfold relativeDifference, max. simpl.
  rewrite !FloatAxioms.eqb_spec, !FloatAxioms.ltb_spec, Ha.
  change (Prim2SF 0) with (S754_zero false). simpl.
  assert (H1 : (a - 0)%float = a).
  { apply Prim2SF_inj. by rewrite sub_spec, Ha. }
  assert (H2 : abs (0 - a) = a).
  { apply Prim2SF_inj. by rewrite abs_spec, sub_spec, Ha. }
  assert (H3 : abs a = a).
  { apply Prim2SF_inj. by rewrite abs_spec, Ha. }
  rewrite H1, H2, H3. split; by apply (div_same_finite a m e).
Qed.

Lemma div_int64_zero_or_positive c n :
  0 <= c < 2 ^ 63 -> 0 < n < 2 ^ 63 ->
  (float_of_int64 c / float_of_int64 n)%float = 0%float \/
  exists m e,
    Prim2SF (float_of_int64 c / float_of_int64 n)%float = S754_finite false m e.
Proof.
  intros Hc Hn. destruct (Z.eq_dec c 0) as [->|Hc0].
  - left. by apply div_int64_zero.
  - destruct (float_of_int64_pos c ltac:(lia)) as (m1 & e1 & H1 & He1 & Hm1).
    destruct (float_of_int64_pos n Hn) as (m2 & e2 & H2 & He2 & Hm2).
    destruct (SFdiv_bounded m1 e1 m2 e2 Hm1 Hm2 He1 He2) as [Hz|(m & e & Hf)].
    + left. apply Prim2SF_inj. by rewrite div_spec, H1, H2, Hz.
    + right. exists m, e. by rewrite div_spec, H1, H2, Hf.
Qed.

(** The term of a byte that the target lacks, and of one that the
    reference lacks. *)
Lemma score_term_one_side (r : float) :
  r = 0%float \/ (exists m e, Prim2SF r = S754_finite false m e) ->
  (r * (1 - relativeDifference r 0))%float = 0%float /\
  (0 * (1 - relativeDifference 0 r))%float = 0%float.
Proof.
  intros [->|(m & e & Hr)]; [done|].
  destruct (relativeDifference_positive_zero r m e Hr) as [-> ->].
  change (1 - 1)%float with 0%float. split; [|done].
  apply Prim2SF_inj. by rewrite mul_spec, Hr.
Qed.

Lemma occurrences_positive i contents :
  (0 < occurrences i contents)%nat ->
  exists c, c ∈ contents /\ Byte.to_nat c = i.
Proof.
  unfold occurrences. intros Hpos.
  destruct (filter (fun c => Byte.to_nat c = i) contents) as [|c l] eqn:Hf;
    [simpl in Hpos; lia|].
  assert (Hc : c ∈ filter (fun c => Byte.to_nat c = i) contents)
    by (rewrite Hf; left).
  apply list_elem_of_filter in Hc as [Hi Hc]. by exists c.
Qed.

(** X14: when no byte of the contents occurs in the corpus an Analyzer was
    trained on, the score is exactly 0. *)
Theorem Score_no_common_byte_is_zero `{Gob} (w : World)
    (corpus contents : list Byte.byte) :
  corpus <> [] -> contents <> [] ->
  Z.of_nat (length corpus) < 2 ^ 63 -> Z.of_nat (length contents) < 2 ^ 63 ->
  (forall c, c ∈ contents -> c ∉ corpus) ->
  fst ((a <- NewAnalyzer ;;
        Feed a corpus ;;;
        Score (F:=float) a contents) w) = 0%float.
Proof.
  intros Hcorpus Hcontents Hn Hm Hdisjoint. rewrite train_then_Score.
  assert (0 < length corpus)%nat by (destruct corpus; simpl; [done|lia]).
  assert (0 < length contents)%nat by (destruct contents; simpl; [done|lia]).
  unfold scoreFrequencies. apply foldl_fixed. intros i Hi%in_seq_256.
  unfold score_step, normalized.
  rewrite !feed_zero_frequency, !feed_zero_size by done. simpl.
  pose proof (occurrences_le i corpus). pose proof (occurrences_le i contents).
  destruct (Nat.eq_dec (occurrences i corpus) 0%nat) as [Hc0|Hc0].
  - rewrite Hc0. change (Z.of_nat 0%nat) with 0.
    rewrite (div_int64_zero (Z.of_nat (length corpus))) by lia.
    destruct (score_term_one_side
                (float_of_int64 (Z.of_nat (occurrences i contents)) /
                 float_of_int64 (Z.of_nat (length contents)))%float) as [_ ->];
      [apply div_int64_zero_or_positive; lia|done].
  - assert (Hd0 : occurrences i contents = 0%nat).
    { destruct (Nat.eq_dec (occurrences i contents) 0%nat) as [|Hd0]; [done|].
      destruct (occurrences_positive i corpus) as (c1 & Hc1 & Hi1); [lia|].
      destruct (occurrences_positive i contents) as (c2 & Hc2 & Hi2); [lia|].
      assert (c1 = c2) as -> by (apply Byte_to_nat_inj; congruence).
      by destruct (Hdisjoint c2). }
    rewrite Hd0. change (Z.of_nat 0%nat) with 0.
    rewrite (div_int64_zero (Z.of_nat (length contents))) by lia.
    destruct (score_term_one_side
                (float_of_int64 (Z.of_nat (occurrences i corpus)) /
                 float_of_int64 (Z.of_nat (length corpus)))%float) as [-> _];
      [apply div_int64_zero_or_positive; lia|done].
Qed.

Lemma Score_no_common_byte_is_zero_witness :
  fst ((a <- NewAnalyzer ;;
        Feed a [Byte.x61; Byte.x62; Byte.x61] ;;;
        Score (F:=float) a [Byte.x78; Byte.x79]) world_empty) = 0%float.
Proof.
  apply (Score_no_common_byte_is_zero world_empty
           [Byte.x61; Byte.x62; Byte.x61] [Byte.x78; Byte.x79]).
  - discriminate.
  - discriminate.
  - vm_compute. reflexivity.
  - vm_compute. reflexivity.
  - intros c Hc Hcorpus.
    repeat (apply elem_of_cons in Hc as [->|Hc]);
      try (by apply elem_of_nil in Hc);
      repeat (apply elem_of_cons in Hcorpus as [Hcorpus|Hcorpus]);
      try discriminate; by apply elem_of_nil in Hcorpus.
Defined.

(** ** [relativeDifference] *)

(** X15: on binary64, the relative difference of a positive finite number
    and itself is 0, and of such a number and 0, in either order, is 1. *)
Theorem relativeDifference_same_and_zero (a : float) :
  (0 <? a)%float = true -> (a <? infinity)%float = true ->
  relativeDifference a a = 0%float /\
  relativeDifference a 0%float = 1%float /\
  relativeDifference 0%float a = 1%float.
Proof.
  intros H0 Hinf. destruct (positive_finite_intro a H0 Hinf) as (m & e & Ha).
  split.
  - apply relativeDifference_same. by rewrite Ha.
  - by apply (relativeDifference_positive_zero a m e).
Qed.

Lemma relativeDifference_same_and_zero_witness :
  relativeDifference 0.375%float 0.375%float = 0%float /\
  relativeDifference 0.375%float 0%float = 1%float /\
  relativeDifference 0%float 0.375%float = 1%float.
Proof.
  apply relativeDifference_same_and_zero; reflexivity.
Defined.

Lemma sub_nan_l x : (nan - x)%float = nan.
Proof. apply Prim2SF_inj. rewrite sub_spec. reflexivity. Qed.

(** X16: on binary64, the relative difference is not-a-number as soon as
    one argument is, and is 0 for two zeros of any sign. *)
Theorem relativeDifference_nan_and_zeros (a : float) :
  relativeDifference nan a = nan /\
  relativeDifference a nan = nan /\
  relativeDifference 0%float (-0)%float = 0%float /\
  relativeDifference (-0)%float 0%float = 0%float /\
  relativeDifference (-0)%float (-0)%float = 0%float.
Proof.
  split; [|split; [|done]].
  - unfold relativeDifference. simpl.
    change (nan =? 0)%float with false. simpl.
    rewrite sub_nan_l. change (abs nan) with nan. apply div_nan_l.
  - unfold relativeDifference. simpl.
    change (nan =? 0)%float with false. rewrite andb_false_r.
    rewrite sub_nan_r. change (abs nan) with nan. apply div_nan_l.
Qed.



(** ** [max] *)

Lemma SFcompare_antisym x y :
  SFcompare y x = option_map CompOpp (SFcompare x y).
Proof.
  destruct x as [[]|[]| |[] m1 e1], y as [[]|[]| |[] m2 e2]; simpl; try done.
  - rewrite (Z.compare_antisym e1 e2).
    destruct (e1 ?= e2); simpl; try done.
    f_equal. f_equal. apply (Pos.compare_antisym m1 m2).
  - rewrite (Z.compare_antisym e1 e2).
    destruct (e1 ?= e2); simpl; try done.
    f_equal. apply (Pos.compare_antisym m1 m2).
Qed.

Lemma SFeqb_refl_compare x : SFeqb x x = true -> SFcompare x x = Some Eq.
Proof.
  unfold SFeqb. by destruct (SFcompare x x) as [[]|].
Qed.

Lemma SFcompare_defined x y :
  SFeqb x x = true -> SFeqb y y = true -> is_Some (SFcompare x y).
Proof.
  destruct x as [[]|[]| |[] m1 e1], y as [[]|[]| |[] m2 e2]; simpl; try done;
    by eexists.
Qed.

(** X18: on binary64, for two arguments that are numbers, [max] returns one
    of them and it is not below either. *)
Theorem max_is_the_larger (a b : float) :
  (a =? a)%float = true -> (b =? b)%float = true ->
  (a <=? max a b)%float = true /\ (b <=? max a b)%float = true /\
  (max a b = a \/ max a b = b).
Proof.
  rewrite !FloatAxioms.eqb_spec. intros Ha Hb.
  unfold max. simpl. rewrite FloatAxioms.ltb_spec.
  pose proof (SFcompare_antisym (Prim2SF a) (Prim2SF b)) as Hanti.
  destruct (SFcompare_defined _ _ Ha Hb) as [c Hc]. rewrite Hc in Hanti.
  unfold SFltb. rewrite Hanti. simpl.
  destruct c; simpl; rewrite !FloatAxioms.leb_spec; unfold SFleb;
    rewrite ?Hc, ?Hanti, ?(SFeqb_refl_compare _ Ha), ?(SFeqb_refl_compare _ Hb);
    simpl; auto.
Qed.

Lemma max_is_the_larger_witness :
  (0.25 <=? max 0.25 0.75)%float = true /\
  (0.75 <=? max 0.25 0.75)%float = true /\
  (max 0.25%float 0.75%float = 0.25%float \/
   max 0.25%float 0.75%float = 0.75%float).
Proof.
  apply max_is_the_larger; reflexivity.
Defined.

(** ** The preset *)

(** X19: the preset [EnglishAnalyzer] is a well-typed struct whose [size]
    is positive and is the sum of its counters, none of which is negative;
    it counts no byte above 127. *)
Theorem EnglishAnalyzer_is_consistent :
  Analyzer_typed EnglishAnalyzer /\
  size_is_sum EnglishAnalyzer /\
  0 < size EnglishAnalyzer /\
  Forall (fun v => 0 <= v) (frequency EnglishAnalyzer) /\
  Forall (fun v => v = 0) (drop 128 (frequency EnglishAnalyzer)).
Proof.
  split; [split; [reflexivity|split]|split; [split; reflexivity|split; [reflexivity|split]]].
  - apply (bool_decide_unpack _). vm_compute. exact I.
  - vm_compute. split; discriminate.
  - apply (bool_decide_unpack _). vm_compute. exact I.
  - apply (bool_decide_unpack _). vm_compute. exact I.
Qed.

(** ** The set functions of the map-based revision *)

#[local] Set Warnings "-clear-no-such-hyp".

Lemma setIntersection_lookup {F} (a b : gmap Z F) (k : Z) :
  MapRevision.setIntersection a b !! k
  = match a !! k with Some _ => b !! k | None => None end.
Proof.
  unfold MapRevision.setIntersection.
  apply (map_fold_weak_ind
           (fun r m => r !! k = match m !! k with Some _ => b !! k | None => None end)).
  - by rewrite !lookup_empty.
  - intros i x m r Hi IH. destruct (decide (i = k)) as [->|Hne].
    + rewrite lookup_insert_eq. destruct (b !! k) eqn:Hb.
      * by rewrite lookup_insert_eq.
      * rewrite IH, Hi. done.
    + rewrite lookup_insert_ne by done.
      destruct (b !! i); [rewrite lookup_insert_ne by done|]; done.
Qed.

Lemma setIntersection_dom {F} (a b : gmap Z F) :
  dom (MapRevision.setIntersection a b) = dom a ∩ dom b.
Proof.
  apply set_eq. intros k. rewrite elem_of_intersection, !elem_of_dom.
  rewrite setIntersection_lookup. unfold is_Some.
  destruct (a !! k), (b !! k); naive_solver.
Qed.

Lemma setEqual_dom {F} (a b : gmap Z F) :
  MapRevision.setEqual a b = true <-> dom a = dom b.
Proof.
  unfold MapRevision.setEqual, MapRevision.len. split.
  - destruct (Z.eqb_spec (Z.of_nat (base.size a)) (Z.of_nat (base.size b))) as [Hs|Hs];
      cbn [negb]; [|done].
    intros Hall. apply set_subseteq_size_eq.
    + intros k Hk. apply elem_of_dom in Hk as [v Hv].
      rewrite forallb_forall in Hall.
      apply elem_of_dom. eapply bool_decide_eq_true_1, Hall.
      apply list_elem_of_In. apply list_elem_of_fmap. exists (k, v). split; [done|].
      by apply elem_of_map_to_list.
    + rewrite !size_dom. lia.
  - intros Hd.
    assert (Hs : base.size a = base.size b) by (by rewrite <- !size_dom, Hd).
    rewrite Hs, Z.eqb_refl. cbn [negb].
    apply forallb_forall. intros k Hk. apply bool_decide_eq_true_2.
    apply list_elem_of_In, list_elem_of_fmap in Hk as [[k' v] [-> Hk]].
    apply elem_of_map_to_list in Hk. apply elem_of_dom. rewrite <- Hd.
    apply elem_of_dom. eauto.
Qed.

Lemma setEqual_false_dom {F} (a b : gmap Z F) :
  MapRevision.setEqual a b = false <-> dom a <> dom b.
Proof.
  rewrite <- setEqual_dom. destruct (MapRevision.setEqual a b); split; congruence.
Qed.

Lemma len_setIntersection {F} (a b : gmap Z F) :
  MapRevision.len (MapRevision.setIntersection a b)
  = Z.of_nat (base.size (dom a ∩ dom b)).
Proof.
  unfold MapRevision.len. by rewrite <- size_dom, setIntersection_dom.
Qed.

Lemma len_setIntersection_zero {F} (a b : gmap Z F) :
  MapRevision.len (MapRevision.setIntersection a b) = 0 <-> dom a ## dom b.
Proof.
  rewrite len_setIntersection. split.
  - intros Hz. assert (Hs : base.size (dom a ∩ dom b) = 0%nat) by lia.
    apply size_empty_iff in Hs. set_solver.
  - intros Hd. replace (dom a ∩ dom b) with (∅ : gset Z) by set_solver.
    by rewrite size_empty.
Qed.

(** X20: [setEqual(a, b)] is true exactly when the two maps have the same
    keys, whatever the values and whatever order the loop visits the keys
    in. *)
Theorem setEqual_same_keys {F} (a b : gmap Z F) :
  MapRevision.setEqual a b = true <-> (forall k, is_Some (a !! k) <-> is_Some (b !! k)).
Proof.
  rewrite setEqual_dom. split.
  - intros Hd k. by rewrite <- !elem_of_dom, Hd.
  - intros Hk. apply set_eq. intros k. rewrite !elem_of_dom. apply Hk.
Qed.

(** X21: [setIntersection(a, b)] has exactly the keys that [a] and [b] share,
    each with its value in [b]; it has no more keys than [a] or [b]. *)
Theorem setIntersection_common_keys {F} (a b : gmap Z F) :
  (forall k v, MapRevision.setIntersection a b !! k = Some v
               <-> is_Some (a !! k) /\ b !! k = Some v) /\
  MapRevision.len (MapRevision.setIntersection a b) <= MapRevision.len a /\
  MapRevision.len (MapRevision.setIntersection a b) <= MapRevision.len b.
Proof.
  split; [|split].
  - intros k v. rewrite setIntersection_lookup. unfold is_Some.
    destruct (a !! k); naive_solver.
  - rewrite len_setIntersection. unfold MapRevision.len. rewrite <- (size_dom a).
    apply Nat2Z.inj_le, subseteq_size. set_solver.
  - rewrite len_setIntersection. unfold MapRevision.len. rewrite <- (size_dom b).
    apply Nat2Z.inj_le, subseteq_size. set_solver.
Qed.

(** X22: in float64 and for any [math.Max], [setRelativeDifference(a, b)] is
    0 when the maps have the same keys and 1 when they have different key
    sets and no key in common. *)
Theorem setRelativeDifference_same_or_disjoint
    (math_Max : float -> float -> float) (a b : gmap Z float) :
  (dom a = dom b -> MapRevision.setRelativeDifference math_Max a b = 0%float) /\
  (dom a <> dom b -> dom a ## dom b ->
   MapRevision.setRelativeDifference math_Max a b = 1%float).
Proof.
  unfold MapRevision.setRelativeDifference. split.
  - intros Hd. apply setEqual_dom in Hd. by rewrite Hd.
  - intros Hne Hdisj. apply setEqual_false_dom in Hne. rewrite Hne.
    apply len_setIntersection_zero in Hdisj. rewrite Hdisj. reflexivity.
Qed.

(** X23: in float64 and for any [math.Max], [scoreOccurances(ref, target)]
    is 0 when the target has no key, 1 when the target has keys and they are
    the keys of the reference, and 0 when the two have different key sets and
    no key in common. *)
Theorem scoreOccurances_same_or_disjoint
    (math_Max : float -> float -> float) (ref target : MapRevision.Analyzer) :
  (MapRevision.CCount target = ∅ ->
   MapRevision.scoreOccurances math_Max ref target = 0%float) /\
  (MapRevision.CCount target <> ∅ ->
   dom (MapRevision.CCount ref) = dom (MapRevision.CCount target) ->
   MapRevision.scoreOccurances math_Max ref target = 1%float) /\
  (MapRevision.CCount target <> ∅ ->
   dom (MapRevision.CCount ref) <> dom (MapRevision.CCount target) ->
   dom (MapRevision.CCount ref) ## dom (MapRevision.CCount target) ->
   MapRevision.scoreOccurances math_Max ref target = 0%float).
Proof.
  unfold MapRevision.scoreOccurances.
  assert (Hlen : forall m : gmap Z float, m <> ∅ -> (MapRevision.len m =? 0) = false).
  { intros m Hm. apply Z.eqb_neq. unfold MapRevision.len. intros Hz.
    apply Hm, map_size_empty_iff. lia. }
  split; [|split].
  - intros ->. reflexivity.
  - intros Hm Hd. rewrite (Hlen _ Hm).
    rewrite (proj1 (setRelativeDifference_same_or_disjoint math_Max _ _) Hd).
    reflexivity.
  - intros Hm Hne Hd. rewrite (Hlen _ Hm).
    rewrite (proj2 (setRelativeDifference_same_or_disjoint math_Max _ _) Hne Hd).
    reflexivity.
Qed.







